(** * dependency-pipelines: the rule and pipeline engine

    A shallow embedding of [src/lib/rules.ts] (the version with dependency
    generator adapters and context decorators), [src/lib/pipelines.ts],
    [src/lib/asserts.ts] and the [fsx] helpers, followed by the properties
    of [Pipeline.exec] and of the rule builder.

    Conventions of the embedding:
    - an [async] function is a state-and-exception computation over the
      [World] (file system collaborator, wall clock, [lastIndex] slots of
      the regular expression objects); [await] sequences it;
    - a [Promise] stored in an object is kept in its settled form;
    - [exec] recurses without bound in the source, so the embedding is
      driven by a fuel counter and [OutOfFuel] stands for a recursion that
      has not finished;
    - logger calls are diagnostics and are left out; the two [Date.now()]
      readings that feed them are kept because they consume clock readings;
    - JavaScript strings are modelled by Rocq strings and [Buffer]s by byte
      lists, UTF-8 coding being the conversion between the two. *)

From Stdlib Require Import ZArith Lia Ascii.
From stdpp Require Import gmap strings list fin_maps sorting.

Local Open Scope string_scope.
Local Open Scope list_scope.
Local Open Scope Z_scope.

(** ** Values of the host language *)

(** [Date], through [getTime()]: milliseconds since the epoch. *)
Definition Date := Z.

Definition Buffer := list Byte.byte.

(** [Buffer.from(s, 'utf-8')] and [buffer.toString('utf-8')].  A string
    is kept as its UTF-8 bytes, so the two are exact on well-formed text
    only: the replacement character that the host puts for a lone
    surrogate or for bytes that are not UTF-8 is not represented.  No
    property below relies on one undoing the other; where that matters
    it is a hypothesis. *)
Definition Buffer_from (s : string) : Buffer := String.list_byte_of_string s.
Definition Buffer_toString (b : Buffer) : string := String.string_of_list_byte b.

(** What can be thrown: [new Error(msg)], [new TypeError(msg)], the
    [SyntaxError] of [new RegExp], and the [err] object a file system
    callback is handed (identified by its code, e.g. ENOENT or EACCES). *)
Inductive Exn : Type :=
  | Error (msg : string)
  | TypeError (msg : string)
  | SyntaxError (msg : string)
  | SystemError (code : string).

(** A settled promise. *)
Inductive Promise (A : Type) : Type :=
  | Resolved (a : A)
  | Rejected (e : Exn).
Arguments Resolved {A} a.
Arguments Rejected {A} e.

(** [x || y] on an optional string: [undefined], [null] and the empty
    string are falsy. *)
Definition truthy (s : option string) : bool :=
  match s with
  | Some s => negb (String.eqb s "")
  | None => false
  end.

Definition or_else (s : option string) (d : string) : string :=
  if truthy s then default d s else d.

(** [dependency.name || undefined]. *)
Definition or_undefined (s : option string) : option string :=
  if truthy s then s else None.

(** ** The world an [exec] call runs in *)

Record Stats : Type := mkStats { st_mtime : Date; st_isDirectory : bool }.

Record World : Type := mkWorld {
  fsStat : string -> Exn + Stats;        (* node's fs.stat, by callback outcome *)
  fsReadFile : string -> Exn + Buffer;   (* node's fs.readFile *)
  clock : nat -> Date;                   (* the n-th reading of the wall clock *)
  ticks : nat;                           (* readings taken so far *)
  lastIndex : gmap nat nat               (* lastIndex of each RegExp object *)
}.

Inductive Res (A : Type) : Type :=
  | Ret (a : A) (w : World)
  | Throw (e : Exn) (w : World)
  | OutOfFuel.
Arguments Ret {A} a w.
Arguments Throw {A} e w.
Arguments OutOfFuel {A}.

Definition Async (A : Type) : Type := World -> Res A.

#[export] Instance Async_ret : MRet Async := fun A a w => Ret a w.
#[export] Instance Async_bind : MBind Async := fun A B f m w =>
  match m w with
  | Ret a w' => f a w'
  | Throw e w' => Throw e w'
  | OutOfFuel => OutOfFuel
  end.

#[export] Instance Async_fmap : FMap Async := fun A B f m =>
  a ← m; mret (f a).

Definition throw {A} (e : Exn) : Async A := fun w => Throw e w.
Definition diverge {A} : Async A := fun _ => OutOfFuel.

Definition await {A} (p : Promise A) : Async A :=
  match p with
  | Resolved a => mret a
  | Rejected e => throw e
  end.

(** The settled promise of a call: never throws, keeps the rejection. *)
Definition settle {A} (m : Async A) : Async (Promise A) := fun w =>
  match m w with
  | Ret a w' => Ret (Resolved a) w'
  | Throw e w' => Ret (Rejected e) w'
  | OutOfFuel => OutOfFuel
  end.

(** [new Date()] and [Date.now()]. *)
Definition Date_now : Async Date := fun w =>
  Ret (clock w (ticks w))
      (mkWorld (fsStat w) (fsReadFile w) (clock w) (S (ticks w)) (lastIndex w)).

(** ** fsx *)

Module fsx.

Definition stat (path : string) : Async Stats := fun w =>
  match fsStat w path with
  | inl err => Throw err w
  | inr stats => Ret stats w
  end.

Definition readFile (path : string) : Async Buffer := fun w =>
  match fsReadFile w path with
  | inl err => Throw err w
  | inr buffer => Ret buffer w
  end.

Definition mtimeSafe (path : string) : Async (option Date) := fun w =>
  match fsStat w path with
  | inl _ => Ret None w
  | inr stats => Ret (Some (st_mtime stats)) w
  end.

End fsx.

(** ** Regular expression objects

    [RegExp] is a built-in of the host language.  Its matcher is taken as
    data: [re_match s i] is the first match of the pattern in [s] at or
    after position [i] (exactly at [i] for a sticky pattern), as the array
    of the matched text and the capture groups, with the index just after
    the match.  [re_id] is the identity of the object; its [lastIndex] lives
    in the world. *)

Definition RegExpExecArray := list (option string).

Record RegExp : Type := mkRegExp {
  re_id : nat;
  re_match : string -> nat -> option (RegExpExecArray * nat);
  re_global : bool;
  re_sticky : bool
}.

Definition set_lastIndex (id i : nat) : Async unit := fun w =>
  Ret tt (mkWorld (fsStat w) (fsReadFile w) (clock w) (ticks w)
                  (<[id := i]> (lastIndex w))).

Definition get_lastIndex (id : nat) : Async nat := fun w =>
  Ret (default 0%nat (lastIndex w !! id)) w.

(** [RegExp.prototype.exec]: a pattern without the global and sticky flags
    searches from 0 and leaves [lastIndex] alone; with one of them it
    searches from [lastIndex], stores the end of the match there, and
    resets it to 0 on failure. *)
Definition RegExp_exec (re : RegExp) (s : string) : Async (option RegExpExecArray) :=
  if re_global re || re_sticky re then
    i ← get_lastIndex (re_id re);
    if (String.length s <? i)%nat then
      _ ← set_lastIndex (re_id re) 0; mret None
    else
      match re_match re s i with
      | None => _ ← set_lastIndex (re_id re) 0; mret None
      | Some (m, e) => _ ← set_lastIndex (re_id re) e; mret (Some m)
      end
  else mret (fst <$> re_match re s 0%nat).

(** [RegExp.prototype.test]: [exec] is not null. *)
Definition RegExp_test (re : RegExp) (s : string) : Async bool :=
  m ← RegExp_exec re s;
  mret (match m with Some _ => true | None => false end).

(** ** String helpers of the host language *)

(** [parseInt(s, 10)]: leading white space is skipped, then an optional
    sign, then the longest run of decimal digits; [None] is NaN.  White
    space outside ASCII is not represented. *)
Definition is_white_space (c : ascii) : bool :=
  let n := nat_of_ascii c in
  ((9 <=? n) && (n <=? 13) || (n =? 32))%nat.

Fixpoint skip_white_space (s : string) : string :=
  match s with
  | String c s' => if is_white_space c then skip_white_space s' else s
  | EmptyString => s
  end.

Definition digit_value (c : ascii) : option Z :=
  let n := nat_of_ascii c in
  if ((48 <=? n) && (n <=? 57))%nat then Some (Z.of_nat n - 48) else None.

Fixpoint parse_digits (acc : option Z) (s : string) : option Z :=
  match s with
  | String c s' =>
      match digit_value c with
      | Some d => parse_digits (Some (10 * default 0 acc + d)) s'
      | None => acc
      end
  | EmptyString => acc
  end.

Definition parseInt (s : string) : option Z :=
  match skip_white_space s with
  | String "-" s' => Z.opp <$> parse_digits None s'
  | String "+" s' => parse_digits None s'
  | s' => parse_digits None s'
  end.

(** [String(m[k])] for a number [k]: a hole, a group that did not take part
    in the match and an index that is NaN or out of range all read as
    [undefined]. *)
Definition group_text (m : RegExpExecArray) (k : option Z) : string :=
  match k with
  | Some k =>
      if 0 <=? k then
        match m !! Z.to_nat k with
        | Some (Some text) => text
        | _ => "undefined"
        end
      else "undefined"
  | None => "undefined"
  end.

(** [s.replace(search, fn)] with a string [search]: only the first
    occurrence of [search] is replaced, by [fn] of the matched text. *)
Definition String_replace (s search : string) (fn : string -> string) : string :=
  match String.index 0 search s with
  | Some i =>
      String.substring 0 i s +:+ fn search +:+
      String.substring (i + String.length search)
                       (String.length s - (i + String.length search)) s
  | None => s
  end.

(** [array.sort(cmp)]: the sort is stable; an element goes before the
    first one it compares strictly below. *)
Fixpoint insert_by {A} (cmp : A -> A -> Z) (x : A) (l : list A) : list A :=
  match l with
  | [] => [x]
  | y :: l' => if cmp x y <? 0 then x :: l else y :: insert_by cmp x l'
  end.

Definition Array_sort {A} (cmp : A -> A -> Z) (l : list A) : list A :=
  foldl (fun sorted x => insert_by cmp x sorted) [] l.

(** [Promise.all] over settled promises. *)
Fixpoint Promise_all {A} (ps : list (Promise A)) : Promise (list A) :=
  match ps with
  | [] => Resolved []
  | Rejected e :: _ => Rejected e
  | Resolved a :: ps' =>
      match Promise_all ps' with
      | Resolved l => Resolved (a :: l)
      | Rejected e => Rejected e
      end
  end.

(** [promise.then(f)]. *)
Definition Promise_then {A B} (p : Promise A) (f : A -> B) : Promise B :=
  match p with
  | Resolved a => Resolved (f a)
  | Rejected e => Rejected e
  end.

(** ** asserts.ts *)

Inductive Nullable (A : Type) : Type :=
  | null
  | undefined
  | value (a : A).
Arguments null {A}.
Arguments undefined {A}.
Arguments value {A} a.

(** A parameter of type [T|null]. *)
Definition of_option {A} (x : option A) : Nullable A :=
  match x with
  | Some a => value a
  | None => null
  end.

Module assert.

Definition neitherNullNorUndefined {A} (x : Nullable A) (name : string) : Exn + unit :=
  match x with
  | null => inl (TypeError (name +:+ " must not be null!"))
  | undefined => inl (TypeError (name +:+ " must not be undefined!"))
  | value _ => inr tt
  end.

End assert.

(** ** rules.ts *)

Record NamedDependency : Type := mkNamedDependency {
  d_name : option string;
  d_value : string
}.

(** What a [DependencyGenerator] may return: [null], a string, one named
    dependency, or an iterable of strings and named dependencies (whose
    [null] items the adapter skips).  The call itself may throw. *)
Inductive GeneratorItem : Type :=
  | ItemNull
  | ItemString (s : string)
  | ItemDependency (d : NamedDependency).

Inductive GeneratorResult : Type :=
  | ResultNull
  | ResultString (s : string)
  | ResultDependency (d : NamedDependency)
  | ResultIterable (items : list GeneratorItem).

(** A generator is kept as a function of its two arguments: what it
    returns or throws is modelled, effects of its own are not. *)
Definition DependencyGenerator : Type :=
  string -> RegExpExecArray -> Exn + GeneratorResult.

(** An [IterableIterator] is lazy: nothing runs until it is consumed.  It
    is kept as the outcome of consuming it to the end, the items or the
    exception thrown on the way. *)
Definition IterableIterator (A : Type) : Type := Exn + list A.

Record DependencyGeneratorAdapter : Type := mkAdapter {
  create : string -> RegExpExecArray -> IterableIterator NamedDependency
}.

Definition item_dependency (item : GeneratorItem) : option NamedDependency :=
  match item with
  | ItemNull => None
  | ItemString s => Some (mkNamedDependency None s)
  | ItemDependency d => Some d
  end.

Definition SimpleDependencyGeneratorAdapter
    (generator : string + DependencyGenerator) : DependencyGeneratorAdapter :=
  mkAdapter (fun input m =>
    match generator with
    | inl template =>
        inr [mkNamedDependency None
               (String_replace template input
                  (fun match_ => group_text m (parseInt match_)))]
    | inr generator =>
        match generator input m with
        | inl e => inl e
        | inr ResultNull => inr []
        | inr (ResultString s) => inr [mkNamedDependency None s]
        | inr (ResultDependency d) => inr [d]
        | inr (ResultIterable items) => inr (omap item_dependency items)
        end
    end).

Record Entry : Type := mkEntry {
  e_name : string;
  e_contents : Promise Buffer;
  e_contentsAsString : Promise string;
  e_path : option string;                (* FileEntry only *)
  e_originalPath : option string;        (* FileEntry only *)
  e_mtime : option (Promise Date)        (* FileEntry only *)
}.

(** A property of the context object.  The object is open: the constructor
    of [SimpleContext] adds properties named by the dependencies. *)
Inductive JsVal : Type :=
  | VUndefined
  | VString (s : string)
  | VEntry (e : Entry)
  | VArray (es : list Entry)
  | VPromise (p : Promise Date).

Abbreviation Context := (gmap string JsVal).

Definition ContextDecorator : Type := Context -> Async Context.

Inductive ActionResult : Type :=
  | ActionString (s : string)
  | ActionBuffer (b : Buffer)
  | ActionEntry (e : Entry).

Definition RuleAction : Type := Context -> Async ActionResult.

Definition NoDependencies_instance : DependencyGeneratorAdapter :=
  mkAdapter (fun input m => inr []).

Record Rule : Type := mkRule {
  pattern : RegExp;
  action : option RuleAction;
  decorators : list ContextDecorator;
  dependencies : DependencyGeneratorAdapter
}.

Definition Rule_new (pattern : option RegExp) (action : option RuleAction)
    (dependencies : option DependencyGeneratorAdapter)
    (decorators : list ContextDecorator) : Exn + Rule :=
  match assert.neitherNullNorUndefined (of_option pattern) "pattern" with
  | inl e => inl e
  | inr _ =>
      match assert.neitherNullNorUndefined (of_option dependencies) "dependencies" with
      | inl e => inl e
      | inr _ =>
          match pattern with
          | Some pattern =>
              inr (mkRule pattern action decorators
                     (default NoDependencies_instance dependencies))
          | None => inl (TypeError "pattern must not be null!")
          end
      end
  end.

Definition evalDependencies (r : Rule) (input : string)
    : Async (option (IterableIterator NamedDependency)) :=
  m ← RegExp_exec (pattern r) input;
  match m with
  | None => mret None
  | Some m => mret (Some (create (dependencies r) input m))
  end.

Definition CompositeDependencyGeneratorAdapter
    (first second : DependencyGeneratorAdapter) : DependencyGeneratorAdapter :=
  mkAdapter (fun input m =>
    match create first input m with
    | inl e => inl e
    | inr items1 =>
        match create second input m with
        | inl e => inl e
        | inr items2 => inr (items1 ++ items2)
        end
    end).

Record RuleBuilder : Type := mkRuleBuilder {
  rb_pattern : string + RegExp;
  rb_action : option RuleAction;
  rb_decorators : list ContextDecorator;
  rb_dependencies : option DependencyGeneratorAdapter
}.

Definition RuleBuilder_new (pattern : string + RegExp) (action : option RuleAction)
    : RuleBuilder :=
  mkRuleBuilder pattern action [] None.

Definition addDependency (dependency : string + DependencyGenerator)
    (b : RuleBuilder) : RuleBuilder :=
  let generator :=
    SimpleDependencyGeneratorAdapter
      (inr match dependency with
           | inl dependency => fun _ _ => inr (ResultString dependency)
           | inr dependency => dependency
           end) in
  mkRuleBuilder (rb_pattern b) (rb_action b) (rb_decorators b)
    (Some match rb_dependencies b with
          | None => generator
          | Some dependencies => CompositeDependencyGeneratorAdapter dependencies generator
          end).

Definition addDecorators (decorators : list ContextDecorator) (b : RuleBuilder)
    : RuleBuilder :=
  mkRuleBuilder (rb_pattern b) (rb_action b) (rb_decorators b ++ decorators)
    (rb_dependencies b).

(** [array.splice(index, 0, x)]: a negative index counts from the end. *)
Definition Array_splice_insert {A} (index : Z) (x : A) (l : list A) : list A :=
  let start :=
    if index <? 0 then Z.to_nat (Z.max (Z.of_nat (length l) + index) 0)
    else Z.to_nat index in
  take start l ++ x :: drop start l.

Definition insertDecorator (index : Z) (decorator : ContextDecorator)
    (b : RuleBuilder) : RuleBuilder :=
  mkRuleBuilder (rb_pattern b) (rb_action b)
    (if Z.of_nat (length (rb_decorators b)) <=? index
     then rb_decorators b ++ [decorator]
     else Array_splice_insert index decorator (rb_decorators b))
    (rb_dependencies b).

Definition setAction (action : option RuleAction) (b : RuleBuilder) : RuleBuilder :=
  mkRuleBuilder (rb_pattern b) action (rb_decorators b) (rb_dependencies b).

Section Build.

(** [new RegExp(source)] for a pattern given as a string: the compiled
    object, or the [SyntaxError] of a malformed pattern. *)
Variable RegExp_new : string -> Exn + RegExp.

Definition build (b : RuleBuilder) : Exn + Rule :=
  match
    match rb_pattern b with
    | inl source => RegExp_new source
    | inr re => inr re
    end
  with
  | inl e => inl e
  | inr re =>
      Rule_new (Some re) (rb_action b) (rb_dependencies b) (rb_decorators b)
  end.

(** [PipelineBuilder]: the rule set iterates in insertion order, and
    every [build] makes a new rule object. *)
Definition PipelineBuilder_add (regex : string + RegExp)
    (build_ : RuleBuilder -> RuleBuilder) (ruleSet : list Rule)
    : Exn + list Rule :=
  match build (build_ (RuleBuilder_new regex None)) with
  | inl e => inl e
  | inr rule => inr (ruleSet ++ [rule])
  end.

End Build.

(** ** pipelines.ts *)

Record NamedEntry : Type := mkNamedEntry {
  ne_name : option string;
  ne_entry : Entry
}.

(** The constructor of [SimpleFileEntry]: whatever is not handed in is
    fetched from the file system, and the outcome is kept as a promise. *)
Definition SimpleFileEntry (name path : string) (contents : option Buffer)
    (mtime : option Date) : Async Entry :=
  mtime ← match mtime with
          | None => settle (stats ← fsx.stat path; mret (st_mtime stats))
          | Some mtime => mret (Resolved mtime)
          end;
  contents ← match contents with
             | None => settle (fsx.readFile path)
             | Some contents => mret (Resolved contents)
             end;
  mret (mkEntry name contents (Promise_then contents Buffer_toString)
                (Some path) (Some path) (Some mtime)).

Module SimpleContext.

Definition getMTime (entry : Entry) : option (Promise Date) := e_mtime entry.

(** The comparison the mtimes are sorted with: later dates first. *)
Definition newest_first (a b : Date) : Z := b - a.

(** [entries] is read back from the object, so it is whatever the
    property holds by then: the array, or an entry that a dependency
    named "entries" put in its place (an object without [length], for
    which [!entries.length] holds).  The other kinds of value are never
    stored there; reading them as an array fails. *)
Definition composeMTime (entries : JsVal) : Async (Promise Date) :=
  match entries with
  | VArray [] | VEntry _ => now ← Date_now; mret (Resolved now)
  | VArray entries =>
      mtimes ← mapM (fun e => settle match getMTime e with
                                     | Some mtime => await mtime
                                     | None => Date_now
                                     end) entries;
      mret match Promise_all mtimes with
           | Rejected e => Rejected e
           | Resolved mtimes =>
               match Array_sort newest_first mtimes with
               | newest :: _ => Resolved newest
               | [] => Rejected (TypeError "mtimes[0] is undefined")
               end
           end
  | _ => mret (Rejected (TypeError "entries is not an array"))
  end.

(** [(this as any)[key] = v]: the property is added or replaced.  The
    map holds the properties of the object itself; assigning to
    [__proto__] changes the prototype and adds no property. *)
Definition set_property (key : string) (v : JsVal) (this : Context) : Context :=
  if String.eqb key "__proto__" then this else <[key := v]> this.

Definition bind_named (this : Context) (item : NamedEntry) : Context :=
  match ne_name item with
  | Some name =>
      if truthy (Some name) then set_property name (VEntry (ne_entry item)) this
      else this
  | None => this
  end.

Definition new (input : string) (name : option string) (entries : list NamedEntry)
    : Async Context :=
  let this : Context := <["input" := VString input]> ∅ in
  let this := <["name" := from_option VString VUndefined name]> this in
  let this := <["entries" := VArray (ne_entry <$> entries)]> this in
  let this := foldl bind_named this entries in
  mtime ← composeMTime (default VUndefined (this !! "entries"));
  mret (<["mtime" := VPromise mtime]> this).

End SimpleContext.

Record Pipeline : Type := mkPipeline {
  ruleSet : list Rule
}.

(** [Pipeline.build]: the callback fills the builder, starting from the
    empty rule set. *)
Definition Pipeline_build (build_ : list Rule -> Exn + list Rule) : Exn + Pipeline :=
  match build_ [] with
  | inl e => inl e
  | inr ruleSet => inr (mkPipeline ruleSet)
  end.

(** The selection loop of [exec]: the first rule, in iteration order, whose
    pattern tests true. *)
Fixpoint find_rule (rules : list Rule) (input : string) : Async (option Rule) :=
  match rules with
  | [] => mret None
  | r :: rules' =>
      matched ← RegExp_test (pattern r) input;
      if (matched : bool) then mret (Some r) else find_rule rules' input
  end.

(** How the value returned by an action becomes the result. *)
Definition wrap_result (name : option string) (input : string)
    (actionResult : ActionResult) : Entry :=
  match actionResult with
  | ActionBuffer b =>
      mkEntry (or_else name input) (Resolved b) (Resolved (Buffer_toString b))
              None None None
  | ActionString s =>
      mkEntry (or_else name input) (Resolved (Buffer_from s)) (Resolved s)
              None None None
  | ActionEntry e => e
  end.

(** [await context.mtime; depMTime.getTime()]. *)
Definition context_mtime (context : Context) : Async Date :=
  match context !! "mtime" with
  | Some (VPromise mtime) => await mtime
  | _ => throw (TypeError "depMTime.getTime is not a function")
  end.

(** The test that guards the action:
    [null != mtime && (!entries.length || mtime.getTime() > depMTime.getTime())]. *)
Definition up_to_date (mtime : option Date) (entries : list NamedEntry)
    (depMTime : Date) : bool :=
  match mtime with
  | Some mtime => (length entries =? 0)%nat || (depMTime <? mtime)
  | None => false
  end.

(** The loop over [rawDeps]: each dependency is resolved in turn, under
    its own name when it has one, and the results are collected in order. *)
Definition resolve_dependencies (exec_ : string -> option string -> Async Entry)
    (rawDeps : list NamedDependency) : Async (list NamedEntry) :=
  mapM (fun dependency =>
          entry ← exec_ (d_value dependency) (or_undefined (d_name dependency));
          mret (mkNamedEntry (d_name dependency) entry))
       rawDeps.

(** One invocation of [exec]; [exec_] is the method itself, for the
    recursive calls on the dependencies. *)
Definition exec_body (exec_ : string -> option string -> Async Entry)
    (p : Pipeline) (input : string) (name : option string) : Async Entry :=
  ts ← Date_now;
  rule ← find_rule (ruleSet p) input;
  (* try get as file *)
  mtime ← fsx.mtimeSafe input;
  result ←
    match rule with
    | None =>
        match mtime with
        | Some mtime => SimpleFileEntry (or_else name input) input None (Some mtime)
        | None => throw (Error ("no matching rule for " +:+ input))
        end
    | Some rule =>
        (* exec dependencies *)
        rawDepsOrNull ← evalDependencies rule input;
        match rawDepsOrNull with
        | None => throw (Error ("invalid matching rule for " +:+ input))
        | Some (inl e) => throw e
        | Some (inr rawDeps) =>
            entries ← resolve_dependencies exec_ rawDeps;
            (* exec action *)
            match action rule with
            | None => throw (Error "default actions not yet supported")
            | Some action =>
                context ← SimpleContext.new input name entries;
                depMTime ← context_mtime context;
                if up_to_date mtime entries depMTime
                then SimpleFileEntry (or_else name input) input None mtime
                else wrap_result name input <$> action context
            end
        end
    end;
  diff ← Date_now;
  mret result.

(** [exec] recurses on the dependencies without a bound; [fuel] bounds the
    depth of the recursion. *)
Fixpoint exec (fuel : nat) (p : Pipeline) (input : string) (name : option string)
    {struct fuel} : Async Entry :=
  match fuel with
  | O => diverge
  | S fuel => exec_body (exec fuel p) p input name
  end.

(** ** Logging (logging.ts and the loggers of pipelines.ts)

    The console is kept as the list of the calls made on it, in order:
    which method, with which argument.  A level is a number; the levels
    of [LogLevel] are integers, and levels are modelled as integers. *)

Module LogLevel.

Definition trace : Z := 0.
Definition debug : Z := 1.
Definition information : Z := 2.
Definition warning : Z := 3.
Definition error : Z := 4.
Definition fatal : Z := 5.

End LogLevel.

Inductive ConsoleMethod : Type :=
  | console_debug
  | console_log
  | console_warn
  | console_error.

(** An argument of a logger: a message or an [Error] object. *)
Definition LogArg : Type := string + Exn.

Definition instanceof_Error (arg : LogArg) : bool :=
  match arg with
  | inl _ => false
  | inr _ => true
  end.

(** [items.forEach(item => console.method(item))]. *)
Definition console_each (method : ConsoleMethod) (items : list LogArg)
    : list (ConsoleMethod * LogArg) :=
  (fun item => (method, item)) <$> items.

(** The [Logger] interface: [log] is the one method the others go
    through. *)
Record Logger : Type := mkLogger {
  log : Z -> list LogArg -> list (ConsoleMethod * LogArg)
}.

Module ConsoleLogger.

Definition log (logLevel : Z) (args : list LogArg) : list (ConsoleMethod * LogArg) :=
  let errors := List.filter instanceof_Error args in
  let messages := List.filter (fun e => negb (instanceof_Error e)) args in
  if logLevel <? LogLevel.information then
    console_each console_debug messages ++ console_each console_debug errors
  else if logLevel <? LogLevel.warning then
    console_each console_log messages ++ console_each console_log errors
  else if logLevel <? LogLevel.error then
    console_each console_warn messages ++ console_each console_warn errors
  else
    console_each console_error messages ++ console_each console_error errors.

Definition new : Logger := mkLogger log.

End ConsoleLogger.

Module FilteredConsoleLogger.

Definition log (minLogLevel : Z) (logLevel : Z) (args : list LogArg)
    : list (ConsoleMethod * LogArg) :=
  if minLogLevel <=? logLevel then ConsoleLogger.log logLevel args else [].

Definition new (minLogLevel : Z) : Logger := mkLogger (log minLogLevel).

End FilteredConsoleLogger.

(** The level methods, which every logger class inherits from
    [ConsoleLogger]: each calls [this.log] with its level. *)
Definition Logger_trace (l : Logger) := log l LogLevel.trace.
Definition Logger_debug (l : Logger) := log l LogLevel.debug.
Definition Logger_info (l : Logger) := log l LogLevel.information.
Definition Logger_warn (l : Logger) := log l LogLevel.warning.
Definition Logger_error (l : Logger) := log l LogLevel.error.
Definition Logger_fatal (l : Logger) := log l LogLevel.fatal.

(** The logger the constructor of [Pipeline] keeps: a number stands for a
    filtered console logger of that minimum level, nothing for a plain
    console logger. *)
Definition Pipeline_logger (logger : option (Z + Logger)) : Logger :=
  match logger with
  | Some (inl minLogLevel) => FilteredConsoleLogger.new minLogLevel
  | Some (inr logger) => logger
  | None => ConsoleLogger.new
  end.

(** ** Concrete patterns, worlds and actions for the examples *)

Module Scenario.

(** [/lit/] for a text [lit] without metacharacters: the first
    occurrence at or after the start index. *)
Definition literal_match (lit : string) (s : string) (i : nat)
    : option (RegExpExecArray * nat) :=
  match String.index i lit s with
  | Some j => Some ([Some lit], (j + String.length lit)%nat)
  | None => None
  end.

Fixpoint no_line_terminator (s : string) : bool :=
  match s with
  | String c s' =>
      negb ((nat_of_ascii c =? 10) || (nat_of_ascii c =? 13))%nat
      && no_line_terminator s'
  | EmptyString => true
  end.

(** The pattern anchored at both ends that captures any run of
    characters (group 1) before a literal [suffix], such as the one for
    minified scripts with suffix [.min.js]: it matches the whole target,
    and the dot takes no line terminator. *)
Definition stem_match (suffix : string) (s : string) (i : nat)
    : option (RegExpExecArray * nat) :=
  let n := (String.length s - String.length suffix)%nat in
  if (i =? 0)%nat
     && (String.length suffix <=? String.length s)%nat
     && String.eqb (String.substring n (String.length suffix) s) suffix
     && no_line_terminator (String.substring 0 n s)
  then Some ([Some s; Some (String.substring 0 n s)], String.length s)
  else None.

(** A disk of regular files, each with its mtime and bytes; any other
    path fails with ENOENT. *)
Definition disk (files : gmap string (Date * Buffer)) (clk : nat -> Date) : World :=
  mkWorld
    (fun path => match files !! path with
                 | Some (t, _) => inr (mkStats t false)
                 | None => inl (SystemError "ENOENT")
                 end)
    (fun path => match files !! path with
                 | Some (_, bytes) => inr bytes
                 | None => inl (SystemError "ENOENT")
                 end)
    clk 0 ∅.

(** The clock of the examples: reading [n] is [1000 + n]. *)
Definition clock_1000 (n : nat) : Date := 1000 + Z.of_nat n.

(** Patterns are handed over compiled in the examples. *)
Definition no_source (source : string) : Exn + RegExp :=
  inl (SyntaxError source).

(** An action that reports the [path] property of the context it is
    given. *)
Definition report_path : RuleAction := fun context =>
  mret (ActionString match context !! "path" with
                     | Some (VString path) => "path: " +:+ path
                     | _ => "path: undefined"
                     end).

(** A decorator that sets [path]. *)
Definition set_path (path : string) : ContextDecorator := fun context =>
  mret (<["path" := VString path]> context).

(** An action that returns the first dependency, or fails as the [pass]
    action does when [context.entries[0]] is missing. *)
Definition first_entry : RuleAction := fun context =>
  match context !! "entries" with
  | Some (VArray (entry :: _)) => mret (ActionEntry entry)
  | _ => throw (Error "Failed to pass (missing source entry)!")
  end.

Definition empty_disk : World := disk ∅ clock_1000.

(** The minifier rule of the documentation: scripts ending in [.min.js]
    depend on the template [\1.js]. *)
Definition re_min_js : RegExp := mkRegExp 1 (stem_match ".min.js") false false.

Definition minify_builder : RuleBuilder :=
  setAction (Some first_entry)
    (addDependency (inl "\1.js") (RuleBuilder_new (inr re_min_js) None)).

Definition minify_rule : Rule :=
  mkRule re_min_js (Some first_entry) []
    (SimpleDependencyGeneratorAdapter
       (inr (fun _ _ => inr (ResultString "\1.js")))).

(** The same rule with a computed generator: group 1 followed by [.js]. *)
Definition stem_js : DependencyGenerator := fun input m =>
  inr (ResultString (group_text m (Some 1) +:+ ".js")).

Definition copy_rule (a : option RuleAction) : Rule :=
  mkRule re_min_js a [] (SimpleDependencyGeneratorAdapter (inr stem_js)).

(** A disk with [app.js] and [app.min.js], of the given mtimes. *)
Definition site (t_src t_min : Date) : World :=
  disk (<["app.js" := (t_src, Buffer_from "src")]>
          (<["app.min.js" := (t_min, Buffer_from "min")]> ∅))
       clock_1000.

(** A rule without dependencies that carries a decorator. *)
Definition re_bundle : RegExp := mkRegExp 2 (literal_match "bundle") false false.

Definition no_dependency : DependencyGenerator := fun _ _ => inr ResultNull.


Definition bundle_rule : Rule :=
  mkRule re_bundle (Some report_path) [set_path "dist/bundle"]
    (SimpleDependencyGeneratorAdapter (inr no_dependency)).




(** A file entry as [exec] returns it, and an entry as it comes out of an
    action that returned text. *)
Definition file_entry (path : string) (t : Date) (text : string) : Entry :=
  mkEntry path (Resolved (Buffer_from text)) (Resolved text)
          (Some path) (Some path) (Some (Resolved t)).

Definition text_entry (name text : string) : Entry :=
  mkEntry name (Resolved (Buffer_from text)) (Resolved text) None None None.

(** The minifier rule with its dependency carrying a role, and an
    action that tells what kind of value a property of the context is. *)
Definition stem_js_as (role : string) : DependencyGenerator := fun input m =>
  inr (ResultDependency
         (mkNamedDependency (Some role) (group_text m (Some 1) +:+ ".js"))).

Definition report_property (key : string) : RuleAction := fun context =>
  mret (ActionString match context !! key with
                     | Some (VEntry e) => "entry of " +:+ default "" (e_path e)
                     | Some (VArray _) => "array"
                     | Some (VPromise _) => "promise"
                     | Some (VString _) => "string"
                     | Some VUndefined | None => "undefined"
                     end).

Definition role_rule (role : string) (act : RuleAction) : Rule :=
  mkRule re_min_js (Some act) [] (SimpleDependencyGeneratorAdapter (inr (stem_js_as role))).


(** The rule for [bundle] with another action. *)
Definition bundle_with (act : RuleAction) : Rule :=
  mkRule re_bundle (Some act) []
    (SimpleDependencyGeneratorAdapter (inr no_dependency)).

(** An action whose write is refused. *)
Definition refused_write : RuleAction := fun context =>
  throw (SystemError "EROFS").

End Scenario.

(** ** Definitions used to state the properties *)



(** The world after one more reading of the clock. *)
Definition tick (w : World) : World :=
  mkWorld (fsStat w) (fsReadFile w) (clock w) (S (ticks w)) (lastIndex w).

(** Two worlds with the same file system and the same clock state. *)
Definition same_env (w w' : World) : Prop :=
  fsStat w' = fsStat w /\ fsReadFile w' = fsReadFile w /\
  clock w' = clock w /\ ticks w' = ticks w.

(** An outcome that more fuel can only complete: it is either still
    [OutOfFuel], or already the outcome with more fuel. *)
Definition completes {A} (r r' : Res A) : Prop :=
  r = OutOfFuel \/ r = r'.

(** A pattern whose matching does not depend on [lastIndex]. *)
Definition stateless (re : RegExp) : Prop :=
  re_global re = false /\ re_sticky re = false.

(** The object before the named dependencies are bound on it. *)
Definition plain_context (input : string) (name : option string)
    (entries : list NamedEntry) : Context :=
  <["entries" := VArray (ne_entry <$> entries)]>
    (<["name" := from_option VString VUndefined name]>
       (<["input" := VString input]> ∅)).

(** The names under which the binding loop adds a property. *)
Definition bindable (name : string) : bool :=
  truthy (Some name) && negb (String.eqb name "__proto__").

(** The entry of the last dependency that carries the role [name]. *)
Fixpoint last_named (name : string) (entries : list NamedEntry) : option Entry :=
  match entries with
  | [] => None
  | item :: rest =>
      match last_named name rest with
      | Some e => Some e
      | None =>
          if decide (ne_name item = Some name) then Some (ne_entry item) else None
      end
  end.

(** The time each entry counts for when the mtimes are composed from
    clock reading [n] on: its own mtime, or the next reading of the clock
    when it has none. *)
Fixpoint stamps (clk : nat -> Date) (n : nat) (entries : list Entry) : list Date :=
  match entries with
  | [] => []
  | e :: rest =>
      match e_mtime e with
      | Some (Resolved t) => t :: stamps clk n rest
      | Some (Rejected _) => stamps clk n rest
      | None => clk n :: stamps clk (S n) rest
      end
  end.

(** Sorted with the newest first: every element is at least those after
    it. *)
Definition newest_first_sorted (l : list Date) : Prop :=
  StronglySorted (fun a b => b <= a) l.

(** The mtimes the entries themselves carry. *)
Definition own_mtimes (entries : list Entry) : list Date :=
  omap (fun e => match e_mtime e with
                 | Some (Resolved t) => Some t
                 | _ => None
                 end) entries.

(** [exec] on [input] gets as far as the test that guards the action:
    [rule] was selected and has the action [act], the probe of the target
    gave [mtime], the dependencies resolved to [entries], the context is
    [context] and its composed mtime is [depMTime]; [w'] is the world at
    that point. *)
Definition reaches_guard (fuel : nat) (p : Pipeline) (input : string)
    (name : option string) (w : World) (rule : Rule) (act : RuleAction)
    (mtime : option Date) (entries : list NamedEntry) (context : Context)
    (depMTime : Date) (w' : World) : Prop :=
  exists w1 rawDeps w2 w3 w4,
    find_rule (ruleSet p) input (tick w) = Ret (Some rule) w1 /\
    action rule = Some act /\
    fsx.mtimeSafe input w1 = Ret mtime w1 /\
    evalDependencies rule input w1 = Ret (Some (inr rawDeps)) w2 /\
    resolve_dependencies (exec fuel p) rawDeps w2 = Ret entries w3 /\
    SimpleContext.new input name entries w3 = Ret context w4 /\
    context_mtime context w4 = Ret depMTime w'.

(** Consuming iterators one after the other: the items of all of them in
    order, or the exception of the first that throws. *)
Fixpoint consume_all {A} (iterators : list (IterableIterator A)) : IterableIterator A :=
  match iterators with
  | [] => inr []
  | inl e :: _ => inl e
  | inr items :: rest =>
      match consume_all rest with
      | inl e => inl e
      | inr items' => inr (items ++ items')
      end
  end.

(** The adapter [addDependency] makes of what it is given. *)
Definition declared_adapter (dependency : string + DependencyGenerator)
    : DependencyGeneratorAdapter :=
  SimpleDependencyGeneratorAdapter
    (inr match dependency with
         | inl dependency => fun _ _ => inr (ResultString dependency)
         | inr dependency => dependency
         end).

(** Where [insertDecorator] puts a decorator in a list of [n]: at the end
    when the index is [n] or more, counted from the end when it is
    negative. *)
Definition insert_position (index : Z) (n : nat) : nat :=
  if Z.of_nat n <=? index then n
  else if index <? 0 then Z.to_nat (Z.max (Z.of_nat n + index) 0)
  else Z.to_nat index.

(** The string form of an entry is the decoding of its byte form. *)
Definition decodes (e : Entry) : Prop :=
  e_contentsAsString e = Promise_then (e_contents e) Buffer_toString.

(** Every entry that can be read off a context decodes. *)
Definition context_decodes (context : Context) : Prop :=
  forall key v,
    context !! key = Some v ->
    match v with
    | VEntry e => decodes e
    | VArray es => Forall decodes es
    | _ => True
    end.

(** An action whose results decode when the entries of its context do:
    an entry it returns decodes, and a string it returns is text that
    comes back from its own encoding (as every well-formed string does). *)
Definition returns_decodable (act : RuleAction) : Prop :=
  forall context w r w',
    context_decodes context -> act context w = Ret r w' ->
    match r with
    | ActionEntry e => decodes e
    | ActionString s => Buffer_toString (Buffer_from s) = s
    | ActionBuffer _ => True
    end.

(** The severity of a console method. *)
Definition severity (method : ConsoleMethod) : Z :=
  match method with
  | console_debug => 0
  | console_log => 1
  | console_warn => 2
  | console_error => 3
  end.

(** * Properties *)

(** ** The helpers of the host language on examples *)

Example parseInt_examples :
  parseInt "12abc" = Some 12 /\ parseInt "  -7" = Some (-7) /\
  parseInt "app.min.js" = None /\ parseInt "" = None /\ parseInt "-" = None.
Proof. repeat split. Qed.

Example String_replace_examples :
  String_replace "a.b.a" "a" (fun _ => "X") = "X.b.a" /\
  String_replace "abc" "d" (fun _ => "X") = "abc" /\
  String_replace "abc" "" (fun _ => "X") = "Xabc" /\
  String_replace "abc" "bc" (fun _ => "X") = "aX".
Proof. repeat split. Qed.

Example Array_sort_example :
  Array_sort SimpleContext.newest_first [3; 9; 1; 9; 4] = [9; 9; 4; 3; 1].
Proof. reflexivity. Qed.

(** ** The monad *)

Section AsyncLaws.

Context {A B : Type}.

Lemma bind_Ret (m : Async A) (f : A -> Async B) w a w' :
  m w = Ret a w' -> (m ≫= f) w = f a w'.
Proof. intros H. unfold mbind, Async_bind. now rewrite H. Qed.

Lemma bind_Throw (m : Async A) (f : A -> Async B) w e w' :
  m w = Throw e w' -> (m ≫= f) w = Throw e w'.
Proof. intros H. unfold mbind, Async_bind. now rewrite H. Qed.

Lemma bind_OutOfFuel (m : Async A) (f : A -> Async B) w :
  m w = OutOfFuel -> (m ≫= f) w = OutOfFuel.
Proof. intros H. unfold mbind, Async_bind. now rewrite H. Qed.

Lemma fmap_Ret (m : Async A) (f : A -> B) w a w' :
  m w = Ret a w' -> (f <$> m) w = Ret (f a) w'.
Proof. intros H. unfold fmap, Async_fmap. now rewrite (bind_Ret _ _ _ _ _ H). Qed.


End AsyncLaws.

Lemma Date_now_eq w : Date_now w = Ret (clock w (ticks w)) (tick w).
Proof. reflexivity. Qed.

Lemma same_env_refl w : same_env w w.
Proof. repeat split. Qed.

Lemma same_env_trans w1 w2 w3 : same_env w1 w2 -> same_env w2 w3 -> same_env w1 w3.
Proof.
  unfold same_env. intros (a & b & c & d) (a' & b' & c' & d').
  repeat split; congruence.
Qed.

(** ** Matching *)

(** Running a pattern always yields an answer, and touches nothing but
    [lastIndex]. *)
Lemma RegExp_exec_returns re s w :
  exists m w', RegExp_exec re s w = Ret m w' /\ same_env w w'.
Proof.
  unfold RegExp_exec.
  destruct (re_global re || re_sticky re).
  - unfold mbind, Async_bind, get_lastIndex; simpl.
    destruct (String.length s <? _)%nat; simpl.
    + eexists _, _. split; [reflexivity | repeat split].
    + destruct (re_match re s _) as [[m e]|]; simpl;
        eexists _, _; (split; [reflexivity | repeat split]).
  - eexists _, _. split; [reflexivity | apply same_env_refl].
Qed.

Lemma RegExp_test_returns re s w :
  exists b w', RegExp_test re s w = Ret b w' /\ same_env w w'.
Proof.
  destruct (RegExp_exec_returns re s w) as (m & w' & H & Henv).
  unfold RegExp_test. rewrite (bind_Ret _ _ _ _ _ H).
  eexists _, _. split; [reflexivity | exact Henv].
Qed.

(** The selection loop always ends, with a rule or with none. *)
Lemma find_rule_returns rules input w :
  exists r w', find_rule rules input w = Ret r w' /\ same_env w w'.
Proof.
  revert w. induction rules as [|r rules IH]; intros w; simpl.
  - eexists _, _. split; [reflexivity | apply same_env_refl].
  - destruct (RegExp_test_returns (pattern r) input w) as (b & w1 & H & Henv).
    rewrite (bind_Ret _ _ _ _ _ H). destruct b.
    + eexists _, _. split; [reflexivity | exact Henv].
    + destruct (IH w1) as (r' & w2 & H2 & Henv2).
      eexists _, _. split; [exact H2 | eapply same_env_trans; eassumption].
Qed.

(** A selected rule belongs to the rule set. *)
Lemma find_rule_In rules input w r w' :
  find_rule rules input w = Ret (Some r) w' -> In r rules.
Proof.
  revert w. induction rules as [|r0 rules IH]; intros w; simpl.
  - discriminate.
  - destruct (RegExp_test_returns (pattern r0) input w) as (b & w1 & H & _).
    rewrite (bind_Ret _ _ _ _ _ H). destruct b.
    + intros [= <- <-]. now left.
    + intros H2. right. eapply IH; eassumption.
Qed.

(** ** Targets without a rule *)

Lemma mtimeSafe_eq path w :
  fsx.mtimeSafe path w =
  Ret (match fsStat w path with inl _ => None | inr stats => Some (st_mtime stats) end) w.
Proof. unfold fsx.mtimeSafe. now destruct (fsStat w path). Qed.

Lemma SimpleFileEntry_given_mtime name path t w :
  SimpleFileEntry name path None (Some t) w =
  Ret (mkEntry name
         (match fsReadFile w path with inl e => Rejected e | inr b => Resolved b end)
         (match fsReadFile w path with
          | inl e => Rejected e
          | inr b => Resolved (Buffer_toString b)
          end)
         (Some path) (Some path) (Some (Resolved t))) w.
Proof.
  unfold SimpleFileEntry, mbind, Async_bind, mret, Async_ret, settle, fsx.readFile.
  now destruct (fsReadFile w path).
Qed.

(** C4. A target that no rule matches: when a file is there, [exec]
    returns the file entry of the target, whose contents are the bytes of
    the file and whose mtime is the mtime of the file; when the probe finds
    nothing, [exec] fails with the error "no matching rule for" followed by
    the target. *)
Theorem exec_unmatched_target fuel p input name w w1 :
  find_rule (ruleSet p) input (tick w) = Ret None w1 ->
  (forall stats bytes,
      fsStat w input = inr stats -> fsReadFile w input = inr bytes ->
      exists e w',
        exec (S fuel) p input name w = Ret e w' /\
        e_contents e = Resolved bytes /\
        e_contentsAsString e = Resolved (Buffer_toString bytes) /\
        e_mtime e = Some (Resolved (st_mtime stats)) /\
        e_path e = Some input /\ e_originalPath e = Some input /\
        e_name e = or_else name input) /\
  (forall err,
      fsStat w input = inl err ->
      exec (S fuel) p input name w =
      Throw (Error ("no matching rule for " +:+ input)) w1).
Proof.
  intros Hfind.
  destruct (find_rule_returns (ruleSet p) input (tick w)) as (r & w1' & Hr & Henv).
  rewrite Hfind in Hr. injection Hr as <- <-.
  destruct Henv as (Hstat & Hread & _ & _). simpl in Hstat, Hread.
  split.
  - intros stats bytes Hs Hb.
    eexists _, _. split.
    + simpl. unfold exec_body.
      rewrite (bind_Ret _ _ _ _ _ (Date_now_eq w)).
      rewrite (bind_Ret _ _ _ _ _ Hfind).
      rewrite (bind_Ret _ _ _ _ _ (mtimeSafe_eq input w1)).
      rewrite Hstat, Hs.
      rewrite (bind_Ret _ _ _ _ _ (SimpleFileEntry_given_mtime _ _ _ _)).
      rewrite (bind_Ret _ _ _ _ _ (Date_now_eq w1)).
      reflexivity.
    + simpl. rewrite Hread, Hb. repeat split.
  - intros err Hs. simpl. unfold exec_body.
    rewrite (bind_Ret _ _ _ _ _ (Date_now_eq w)).
    rewrite (bind_Ret _ _ _ _ _ Hfind).
    rewrite (bind_Ret _ _ _ _ _ (mtimeSafe_eq input w1)).
    rewrite Hstat, Hs.
    reflexivity.
Qed.

(** ** Building rules *)

(** Whatever the builder was given, a rule cannot be built before a
    dependency has been declared. *)
Lemma build_needs_dependency RegExp_new b :
  rb_dependencies b = None -> forall r, build RegExp_new b <> inr r.
Proof.
  intros Hnone r. unfold build.
  destruct (match rb_pattern b with inl s => RegExp_new s | inr re => inr re end);
    [discriminate|].
  rewrite Hnone. discriminate.
Qed.

(** C6. A builder on which no dependency was declared: with a compiled
    regular expression as pattern, [build] throws the type error
    "dependencies must not be null!", whatever action and decorators were
    set; with a pattern given as a string it throws as well, that error or
    the one of the compilation. No rule comes out whose dependencies could
    be evaluated. *)
Theorem build_without_generator_throws RegExp_new a ds :
  (forall re,
      build RegExp_new
            (addDecorators ds (setAction a (RuleBuilder_new (inr re) None)))
      = inl (TypeError "dependencies must not be null!")) /\
  (forall source, exists e,
      build RegExp_new
            (addDecorators ds (setAction a (RuleBuilder_new (inl source) None)))
      = inl e) /\
  (forall pattern r,
      build RegExp_new
            (addDecorators ds (setAction a (RuleBuilder_new pattern None)))
      <> inr r).
Proof.
  split; [reflexivity|]. split.
  - intros source. unfold build. simpl.
    destruct (RegExp_new source) as [e|re]; eauto.
  - intros pattern r. now apply build_needs_dependency.
Qed.

(** The fallback of the constructor is what the rule would have had: an
    adapter that yields nothing. *)
Lemma NoDependencies_yields_nothing input m :
  create NoDependencies_instance input m = inr [].
Proof. reflexivity. Qed.

(** A string handed to [addDependency] is wrapped into a generator that
    returns it, so the adapter yields it as it stands. *)
Lemma addDependency_string_verbatim RegExp_new template b r input m :
  rb_dependencies b = None ->
  build RegExp_new (addDependency (inl template) b) = inr r ->
  create (dependencies r) input m = inr [mkNamedDependency None template].
Proof.
  intros Hnone. unfold build. simpl.
  destruct (match rb_pattern b with inl s => RegExp_new s | inr re => inr re end);
    [discriminate|].
  rewrite Hnone. simpl. intros [= <-]. reflexivity.
Qed.

(** C5. The minifier rule declared with the string template [\1.js] and
    evaluated on [app.min.js]: the rule builds, the pattern matches with
    [app] as group 1, and the one unnamed dependency that comes out is the
    template as it stands, not [app.js]; the adapter given the string
    itself leaves it unsubstituted as well, because it searches the
    template for the target and not for a placeholder. *)
Theorem string_template_left_unsubstituted w :
  build Scenario.no_source Scenario.minify_builder = inr Scenario.minify_rule /\
  re_match Scenario.re_min_js "app.min.js" 0%nat
    = Some ([Some "app.min.js"; Some "app"], 10%nat) /\
  evalDependencies Scenario.minify_rule "app.min.js" w
    = Ret (Some (inr [mkNamedDependency None "\1.js"])) w /\
  create (SimpleDependencyGeneratorAdapter (inl "\1.js")) "app.min.js"
         [Some "app.min.js"; Some "app"]
    = inr [mkNamedDependency None "\1.js"].
Proof. repeat split. Qed.

(** What the string branch of the adapter does when the template happens
    to contain the target: the first occurrence of the target is replaced
    by the group whose number [parseInt] reads off the target. *)
Example template_with_target_inside :
  create (SimpleDependencyGeneratorAdapter (inl "src/app.min.js"))
         "app.min.js" [Some "app.min.js"; Some "app"]
    = inr [mkNamedDependency None "src/undefined"] /\
  create (SimpleDependencyGeneratorAdapter (inl "lib-1-dev"))
         "1" [Some "1"; Some "one"]
    = inr [mkNamedDependency None "lib-one-dev"].
Proof. split; reflexivity. Qed.

(** ** Decorators *)






(** ** Fuel *)

Lemma completes_bind {A B} (m m' : Async A) (f g : A -> Async B) w :
  completes (m w) (m' w) ->
  (forall a w', completes (f a w') (g a w')) ->
  completes ((m ≫= f) w) ((m' ≫= g) w).
Proof.
  intros [Hm|Hm] Hf; unfold mbind, Async_bind.
  - left. now rewrite Hm.
  - rewrite <- Hm. destruct (m w); [apply Hf | now right | now left].
Qed.

Lemma completes_refl {A} (r : Res A) : completes r r.
Proof. now right. Qed.

Lemma completes_mapM {A B} (f g : A -> Async B) l :
  (forall x w, completes (f x w) (g x w)) ->
  forall w, completes (mapM f l w) (mapM g l w).
Proof.
  intros Hfg. induction l as [|x l IH]; intros w; simpl; [apply completes_refl|].
  apply completes_bind; [apply Hfg|]. intros y w'.
  apply completes_bind; [apply IH|]. intros; apply completes_refl.
Qed.

(** More fuel never changes an outcome that has been reached: [OutOfFuel]
    only ever stands for a recursion that has not finished yet. *)
Lemma exec_fuel_monotone fuel p input name w :
  completes (exec fuel p input name w) (exec (S fuel) p input name w).
Proof.
  revert input name w. induction fuel as [|fuel IH]; intros input name w;
    [now left|].
  change (completes (exec_body (exec fuel p) p input name w)
                    (exec_body (exec (S fuel) p) p input name w)).
  unfold exec_body.
  apply completes_bind; [apply completes_refl|]. intros ts w0.
  apply completes_bind; [apply completes_refl|]. intros rule w1.
  apply completes_bind; [apply completes_refl|]. intros mtime w2.
  apply completes_bind; [|intros; apply completes_refl].
  destruct rule as [rule|]; [|apply completes_refl].
  apply completes_bind; [apply completes_refl|].
  intros [[e|rawDeps]|] w3; try apply completes_refl.
  apply completes_bind; [|intros; apply completes_refl].
  unfold resolve_dependencies. apply completes_mapM. intros d w4.
  apply completes_bind; [apply IH | intros; apply completes_refl].
Qed.

(** ** The guard of the action *)

(** Once [exec] has reached the guard, its outcome is the one of the
    branch the guard selects, followed by the closing reading of the clock. *)
Lemma exec_at_guard fuel p input name w rule act mt entries context D w' :
  reaches_guard fuel p input name w rule act mt entries context D w' ->
  exec (S fuel) p input name w =
  (result ← (if up_to_date mt entries D
             then SimpleFileEntry (or_else name input) input None mt
             else wrap_result name input <$> act context);
   diff ← Date_now; mret result) w'.
Proof.
  intros (w1 & rawDeps & w2 & w3 & w4 & Hfind & Hact & Hmt & Hdeps & Hres & Hctx & HD).
  simpl. unfold exec_body.
  rewrite (bind_Ret _ _ _ _ _ (Date_now_eq w)).
  rewrite (bind_Ret _ _ _ _ _ Hfind).
  rewrite (bind_Ret _ _ _ _ _ Hmt).
  unfold mbind at 1, Async_bind at 1.
  rewrite (bind_Ret _ _ _ _ _ Hdeps).
  rewrite (bind_Ret _ _ _ _ _ Hres).
  rewrite Hact.
  rewrite (bind_Ret _ _ _ _ _ Hctx).
  rewrite (bind_Ret _ _ _ _ _ HD).
  reflexivity.
Qed.

Lemma up_to_date_false (T : Date) (entries : list NamedEntry) (D : Date) :
  entries <> [] -> T <= D -> up_to_date (Some T) entries D = false.
Proof.
  intros Hne Hle. unfold up_to_date.
  destruct entries; [congruence|]. simpl. apply Z.ltb_ge. exact Hle.
Qed.

Lemma up_to_date_true (T : Date) (entries : list NamedEntry) (D : Date) :
  entries = [] \/ D < T -> up_to_date (Some T) entries D = true.
Proof.
  intros [->|Hlt]; [reflexivity|]. unfold up_to_date.
  apply orb_true_iff. right. apply Z.ltb_lt. exact Hlt.
Qed.

Lemma up_to_date_iff (T : Date) (entries : list NamedEntry) (D : Date) :
  (up_to_date (Some T) entries D = false <-> entries <> [] /\ T <= D) /\
  (up_to_date (Some T) entries D = true <-> entries = [] \/ D < T).
Proof.
  unfold up_to_date. destruct entries as [|item entries]; simpl.
  - split; split.
    + discriminate.
    + intros [H _]. congruence.
    + intros _. now left.
    + reflexivity.
  - rewrite Z.ltb_ge, Z.ltb_lt. split; split.
    + intros H. split; [discriminate | exact H].
    + tauto.
    + tauto.
    + intros [H|H]; [discriminate | exact H].
Qed.

(** C3. For a matched rule that has an action, at the guard, with the
    probe of the target giving mtime [T] and the composed mtime of the
    dependencies being [D]: with dependencies and [T <= D] the outcome of
    [exec] is the outcome of the action on the context, wrapped; without
    dependencies, or with [D < T], the action is left out and [exec]
    returns the file entry of the target, carrying [T]; and when the probe
    found no file the outcome is again the one of the action. The test
    that decides between the two fails exactly when there are dependencies
    and [T <= D], and holds exactly when there are none or [D < T]. *)
Theorem staleness_guard fuel p input name w rule act mt entries context D w' :
  reaches_guard fuel p input name w rule act mt entries context D w' ->
  (forall T, mt = Some T -> entries <> [] -> T <= D ->
     exec (S fuel) p input name w =
     (r ← act context; diff ← Date_now; mret (wrap_result name input r)) w') /\
  (forall T, mt = Some T -> entries = [] \/ D < T ->
     exists e,
       exec (S fuel) p input name w = Ret e (tick w') /\
       e_mtime e = Some (Resolved T) /\
       e_path e = Some input /\ e_originalPath e = Some input /\
       e_name e = or_else name input /\
       e_contents e = match fsReadFile w' input with
                      | inl err => Rejected err
                      | inr bytes => Resolved bytes
                      end) /\
  (mt = None ->
     exec (S fuel) p input name w =
     (r ← act context; diff ← Date_now; mret (wrap_result name input r)) w') /\
  (forall T, mt = Some T ->
     (up_to_date mt entries D = false <-> entries <> [] /\ T <= D) /\
     (up_to_date mt entries D = true <-> entries = [] \/ D < T)).
Proof.
  intros Hguard. pose proof (exec_at_guard _ _ _ _ _ _ _ _ _ _ _ _ Hguard) as Hexec.
  assert (Hrun : forall (m : Async ActionResult),
             (result ← wrap_result name input <$> m; diff ← Date_now; mret result) w'
             = (r ← m; diff ← Date_now; mret (wrap_result name input r)) w').
  { intros m. unfold fmap, Async_fmap, mbind, Async_bind.
    destruct (m w'); reflexivity. }
  split; [|split; [|split]].
  - intros T -> Hne Hle. rewrite Hexec, (up_to_date_false _ _ _ Hne Hle).
    apply Hrun.
  - intros T -> Hskip. rewrite Hexec, (up_to_date_true _ _ _ Hskip).
    eexists. split.
    + rewrite (bind_Ret _ _ _ _ _ (SimpleFileEntry_given_mtime _ _ _ _)).
      rewrite (bind_Ret _ _ _ _ _ (Date_now_eq w')). reflexivity.
    + repeat split.
  - intros ->. rewrite Hexec. apply Hrun.
  - intros T ->. apply up_to_date_iff.
Qed.

(** ** Rules without an action *)

Lemma evalDependencies_returns rule input w :
  exists r w', evalDependencies rule input w = Ret r w' /\ same_env w w'.
Proof.
  unfold evalDependencies.
  destruct (RegExp_exec_returns (pattern rule) input w) as (m & w' & H & Henv).
  rewrite (bind_Ret _ _ _ _ _ H).
  destruct m; eexists _, _; (split; [reflexivity | exact Henv]).
Qed.

(** C2, as the code has it. When the matched rule has no action, [exec]
    never returns an entry, whether the target is up to date or not; once
    the dependencies have been resolved it throws the error
    "default actions not yet supported", which does not name the target. *)
Theorem null_action_always_fails fuel p input name w rule w1 :
  find_rule (ruleSet p) input (tick w) = Ret (Some rule) w1 ->
  action rule = None ->
  (forall e w', exec (S fuel) p input name w <> Ret e w') /\
  (forall rawDeps w2 entries w3,
      evalDependencies rule input w1 = Ret (Some (inr rawDeps)) w2 ->
      resolve_dependencies (exec fuel p) rawDeps w2 = Ret entries w3 ->
      exec (S fuel) p input name w =
      Throw (Error "default actions not yet supported") w3).
Proof.
  intros Hfind Hact.
  assert (Hexec : exec (S fuel) p input name w =
            (result ← (rawDepsOrNull ← evalDependencies rule input;
                       match rawDepsOrNull with
                       | None => throw (Error ("invalid matching rule for " +:+ input))
                       | Some (inl e) => throw e
                       | Some (inr rawDeps) =>
                           entries ← resolve_dependencies (exec fuel p) rawDeps;
                           throw (Error "default actions not yet supported")
                       end);
             diff ← Date_now; mret result) w1).
  { simpl. unfold exec_body.
    rewrite (bind_Ret _ _ _ _ _ (Date_now_eq w)).
    rewrite (bind_Ret _ _ _ _ _ Hfind).
    rewrite (bind_Ret _ _ _ _ _ (mtimeSafe_eq input w1)).
    rewrite Hact. reflexivity. }
  split.
  - intros e w'. rewrite Hexec.
    destruct (evalDependencies_returns rule input w1) as (r & w2 & Hr & _).
    unfold mbind at 1, Async_bind at 1.
    rewrite (bind_Ret _ _ _ _ _ Hr).
    destruct r as [[err|rawDeps]|]; try discriminate.
    unfold mbind, Async_bind.
    destruct (resolve_dependencies (exec fuel p) rawDeps w2); discriminate.
  - intros rawDeps w2 entries w3 Hdeps Hres. rewrite Hexec.
    unfold mbind at 1, Async_bind at 1.
    rewrite (bind_Ret _ _ _ _ _ Hdeps).
    rewrite (bind_Ret _ _ _ _ _ Hres). reflexivity.
Qed.

(** C2, as stated, fails. [app.min.js] (mtime 20) is newer than its one
    dependency [app.js] (mtime 10): with an action on the rule, [exec]
    leaves the action out and returns the file entry of the target; with
    no action on the rule, [exec] throws although nothing had to be run. *)
Lemma null_action_fails_on_fresh_target :
  (exists e w',
      exec 2 (mkPipeline [Scenario.copy_rule (Some Scenario.first_entry)])
           "app.min.js" None (Scenario.site 10 20) = Ret e w' /\
      e_mtime e = Some (Resolved 20) /\
      e_contentsAsString e = Resolved "min") /\
  (exists w',
      exec 2 (mkPipeline [Scenario.copy_rule None])
           "app.min.js" None (Scenario.site 10 20)
      = Throw (Error "default actions not yet supported") w').
Proof.
  split.
  - eexists _, _. split; [vm_compute; reflexivity | split; reflexivity].
  - eexists. vm_compute. reflexivity.
Qed.

(** ** Selection and dependency evaluation *)

Lemma RegExp_exec_stateless re s w :
  stateless re -> RegExp_exec re s w = Ret (fst <$> re_match re s 0%nat) w.
Proof. intros [Hg Hs]. unfold RegExp_exec. now rewrite Hg, Hs. Qed.


(** Patterns without flags that do not match the target: the loop ends
    with no rule and leaves the world as it was. *)
Lemma find_rule_none rules input w :
  Forall (fun r => stateless (pattern r) /\ re_match (pattern r) input 0%nat = None)
         rules ->
  find_rule rules input w = Ret None w.
Proof.
  induction 1 as [|r rules [Hstateless Hnone] _ IH]; simpl; [reflexivity|].
  assert (Htest : RegExp_test (pattern r) input w = Ret false w).
  { unfold RegExp_test.
    rewrite (bind_Ret _ _ _ _ _ (RegExp_exec_stateless _ input w Hstateless)).
    now rewrite Hnone. }
  rewrite (bind_Ret _ _ _ _ _ Htest). exact IH.
Qed.



(** ** Failures *)

Lemma mapM_app_Throw {A B} (f : A -> Async B) l1 x l2 w ys w1 e w2 :
  mapM f l1 w = Ret ys w1 -> f x w1 = Throw e w2 ->
  mapM f (l1 ++ x :: l2) w = Throw e w2.
Proof.
  revert w ys. induction l1 as [|a l1 IH]; intros w ys; simpl.
  - intros [= <- <-] Hx. now rewrite (bind_Throw _ _ _ _ _ Hx).
  - unfold mbind at 1, Async_bind at 1.
    destruct (f a w) as [y wa| |] eqn:Ha; try discriminate.
    unfold mbind at 1, Async_bind at 1.
    destruct (mapM f l1 wa) as [ys' wb| |] eqn:Hl; try discriminate.
    intros [= <- <-] Hx.
    rewrite (bind_Ret _ _ _ _ _ Ha).
    now rewrite (bind_Throw _ _ _ _ _ (IH _ _ Hl Hx)).
Qed.

(** The loop over the dependencies stops at the first one that fails, with
    its exception. *)
Lemma resolve_dependencies_Throw exec_ ds1 d ds2 w entries w1 e w2 :
  resolve_dependencies exec_ ds1 w = Ret entries w1 ->
  exec_ (d_value d) (or_undefined (d_name d)) w1 = Throw e w2 ->
  resolve_dependencies exec_ (ds1 ++ d :: ds2) w = Throw e w2.
Proof.
  intros H1 H2. unfold resolve_dependencies in *.
  eapply mapM_app_Throw; [exact H1|].
  now rewrite (bind_Throw _ _ _ _ _ H2).
Qed.



(** ** The context object *)

#[local] Arguments truthy : simpl never.

Lemma truthy_Some n : truthy (Some n) = true <-> n <> "".
Proof.
  unfold truthy. rewrite negb_true_iff. split.
  - intros H ->. discriminate.
  - intros H. apply String.eqb_neq. exact H.
Qed.

(** After the binding loop a property holds the entry of the last
    dependency that carries its name as a role, and is untouched when
    there is none; the empty name and [__proto__] are never bound. *)
Lemma bind_named_lookup (entries : list NamedEntry) (this : Context) n :
  foldl SimpleContext.bind_named this entries !! n =
  match last_named n entries with
  | Some e => if bindable n then Some (VEntry e) else this !! n
  | None => this !! n
  end.
Proof.
  assert (Hother : forall (o : Context) item,
             last_named n [item] = None \/ bindable n = false ->
             SimpleContext.bind_named o item !! n = o !! n).
  { intros o item Hn. unfold SimpleContext.bind_named, SimpleContext.set_property.
    destruct (ne_name item) as [k|] eqn:Hk; [|reflexivity].
    destruct (truthy (Some k)) eqn:Htruthy; [|reflexivity].
    destruct (String.eqb k "__proto__") eqn:Hproto; [reflexivity|].
    apply lookup_insert_ne. intros ->.
    destruct Hn as [Hn|Hn].
    - simpl in Hn. rewrite Hk in Hn.
      destruct (decide (Some n = Some n)); [discriminate | congruence].
    - unfold bindable in Hn. rewrite Htruthy, Hproto in Hn. discriminate. }
  revert this. induction entries as [|item rest IH]; intros this; [reflexivity|].
  simpl. rewrite IH.
  destruct (last_named n rest) as [e|].
  - destruct (bindable n) eqn:Hn; [reflexivity|]. apply Hother. now right.
  - destruct (decide (ne_name item = Some n)) as [Hk|Hk].
    + destruct (bindable n) eqn:Hn; [|apply Hother; now right].
      unfold SimpleContext.bind_named, SimpleContext.set_property. rewrite Hk.
      unfold bindable in Hn. apply andb_true_iff in Hn as [Htruthy Hproto].
      rewrite Htruthy. apply negb_true_iff in Hproto. rewrite Hproto.
      apply lookup_insert_eq.
    + apply Hother. left. simpl.
      destruct (decide (ne_name item = Some n)); [contradiction | reflexivity].
Qed.

Lemma settle_returns {A} (m : Async A) w :
  m w <> OutOfFuel -> exists p w', settle m w = Ret p w'.
Proof. unfold settle. destruct (m w); eauto. congruence. Qed.

Lemma mapM_returns {A B} (f : A -> Async B) l :
  (forall x w, exists y w', f x w = Ret y w') ->
  forall w, exists ys w', mapM f l w = Ret ys w'.
Proof.
  intros Hf. induction l as [|x l IH]; intros w; simpl; [eauto|].
  destruct (Hf x w) as (y & w1 & Hy). rewrite (bind_Ret _ _ _ _ _ Hy).
  destruct (IH w1) as (ys & w2 & Hys). rewrite (bind_Ret _ _ _ _ _ Hys). eauto.
Qed.

Lemma getMTime_settles e w :
  exists p w',
    settle match SimpleContext.getMTime e with
           | Some mtime => await mtime
           | None => Date_now
           end w = Ret p w'.
Proof.
  apply settle_returns.
  destruct (SimpleContext.getMTime e) as [[t|err]|]; discriminate.
Qed.

(** Composing the mtimes never throws: a failure is kept in the promise. *)
Lemma composeMTime_returns v w :
  exists p w', SimpleContext.composeMTime v w = Ret p w'.
Proof.
  destruct v as [| |e|es|]; simpl; try (eexists _, _; reflexivity).
  destruct es as [|e es]; [eexists _, _; reflexivity|].
  destruct (mapM_returns _ (e :: es) getMTime_settles w) as (ps & w' & H).
  rewrite (bind_Ret _ _ _ _ _ H). eauto.
Qed.

(** The constructed context: the bound object with the composed mtime
    stored last. *)
Lemma SimpleContext_new_eq input name entries w context w' :
  SimpleContext.new input name entries w = Ret context w' ->
  exists mt,
    SimpleContext.composeMTime
      (default VUndefined
         (foldl SimpleContext.bind_named (plain_context input name entries) entries
            !! "entries")) w = Ret mt w' /\
    context =
      <["mtime" := VPromise mt]>
        (foldl SimpleContext.bind_named (plain_context input name entries) entries).
Proof.
  unfold SimpleContext.new. fold (plain_context input name entries).
  set (this := foldl _ _ _).
  destruct (composeMTime_returns (default VUndefined (this !! "entries")) w)
    as (mt & w1 & Hmt).
  rewrite (bind_Ret _ _ _ _ _ Hmt). intros [= <- <-]. eauto.
Qed.

(** The constructor always returns. *)
Lemma SimpleContext_new_returns input name entries w :
  exists context w', SimpleContext.new input name entries w = Ret context w'.
Proof.
  unfold SimpleContext.new. fold (plain_context input name entries).
  set (this := foldl _ _ _).
  destruct (composeMTime_returns (default VUndefined (this !! "entries")) w)
    as (mt & w1 & Hmt).
  rewrite (bind_Ret _ _ _ _ _ Hmt). eauto.
Qed.

Lemma bindable_true n : n <> "" -> n <> "__proto__" -> bindable n = true.
Proof.
  intros Hn Hp. unfold bindable. apply andb_true_iff. split.
  - now apply truthy_Some.
  - apply negb_true_iff. now apply String.eqb_neq.
Qed.

(** C10, as the code has it. On the constructed context, a role name
    other than the empty name, "mtime" and "__proto__" holds the entry of
    the last dependency that carries it; this goes for the names of the
    built-in properties too, so that a dependency with the role "entries"
    takes the place of the entry list. A name that no dependency carries,
    the empty name and "__proto__" are as on the plain object:
    dependencies without a role add nothing. The property "mtime" always
    holds the composed mtime, whatever dependency carries that role: the
    promise that [composeMTime] gives, in the world of the construction,
    on what the property "entries" holds once the bindings are made. *)
Theorem named_bindings input name entries w context w' :
  SimpleContext.new input name entries w = Ret context w' ->
  (forall n e, n <> "" -> n <> "mtime" -> n <> "__proto__" ->
      last_named n entries = Some e -> context !! n = Some (VEntry e)) /\
  (forall e, last_named "entries" entries = Some e ->
      context !! "entries" = Some (VEntry e)) /\
  (forall n, n <> "mtime" ->
      last_named n entries = None \/ n = "" \/ n = "__proto__" ->
      context !! n = plain_context input name entries !! n) /\
  (exists mt,
      context !! "mtime" = Some (VPromise mt) /\
      SimpleContext.composeMTime
        (match last_named "entries" entries with
         | Some e => VEntry e
         | None => VArray (ne_entry <$> entries)
         end) w = Ret mt w').
Proof.
  intros Hnew.
  destruct (SimpleContext_new_eq _ _ _ _ _ _ Hnew) as (mt & Hmt & ->).
  assert (Hbound : forall n e, n <> "" -> n <> "mtime" -> n <> "__proto__" ->
             last_named n entries = Some e ->
             <["mtime" := VPromise mt]>
               (foldl SimpleContext.bind_named (plain_context input name entries)
                  entries) !! n = Some (VEntry e)).
  { intros n e Hn Hm Hp Hlast.
    rewrite lookup_insert_ne by congruence.
    rewrite bind_named_lookup, Hlast. now rewrite bindable_true. }
  split; [exact Hbound|]. split; [|split].
  - intros e. apply Hbound; discriminate.
  - intros n Hm Hnone. rewrite lookup_insert_ne by congruence.
    rewrite bind_named_lookup. destruct Hnone as [->|[->| ->]].
    + reflexivity.
    + destruct (last_named "" entries); reflexivity.
    + destruct (last_named "__proto__" entries); reflexivity.
  - exists mt. split; [apply lookup_insert_eq|].
    rewrite bind_named_lookup in Hmt.
    destruct (last_named "entries" entries) as [e|]; exact Hmt.
Qed.

(** C10, as stated, fails. The dependency [app.js] of [app.min.js] is
    given the role "mtime": the action finds the composed mtime under that
    name, not the entry. Under the role "src" it finds the entry, under
    the role "entries" the entry has taken the place of the list (and an
    action that reads [entries[0]] fails), and under the empty role
    nothing is bound. *)
Lemma role_mtime_is_not_bound :
  (exists e w',
      exec 2 (mkPipeline [Scenario.role_rule "mtime" (Scenario.report_property "mtime")])
           "app.min.js" None (Scenario.site 20 10) = Ret e w' /\
      e_contentsAsString e = Resolved "promise") /\
  (exists e w',
      exec 2 (mkPipeline [Scenario.role_rule "src" (Scenario.report_property "src")])
           "app.min.js" None (Scenario.site 20 10) = Ret e w' /\
      e_contentsAsString e = Resolved "entry of app.js") /\
  (exists e w',
      exec 2 (mkPipeline [Scenario.role_rule "entries" (Scenario.report_property "entries")])
           "app.min.js" None (Scenario.site 20 10) = Ret e w' /\
      e_contentsAsString e = Resolved "entry of app.js") /\
  (exists w',
      exec 2 (mkPipeline [Scenario.role_rule "entries" Scenario.first_entry])
           "app.min.js" None (Scenario.site 20 10)
      = Throw (Error "Failed to pass (missing source entry)!") w') /\
  (exists e w',
      exec 2 (mkPipeline [Scenario.role_rule "" (Scenario.report_property "")])
           "app.min.js" None (Scenario.site 20 10) = Ret e w' /\
      e_contentsAsString e = Resolved "undefined").
Proof.
  repeat split.
  - eexists _, _. split; [vm_compute; reflexivity | reflexivity].
  - eexists _, _. split; [vm_compute; reflexivity | reflexivity].
  - eexists _, _. split; [vm_compute; reflexivity | reflexivity].
  - eexists. vm_compute. reflexivity.
  - eexists _, _. split; [vm_compute; reflexivity | reflexivity].
Qed.

(** ** The composed mtime *)

Section NewestFirst.

Import SimpleContext.

Lemma insert_by_elem (x y : Date) l :
  y ∈ insert_by newest_first x l <-> y = x \/ y ∈ l.
Proof.
  induction l as [|z l IH]; simpl.
  - rewrite list_elem_of_singleton, elem_of_nil. tauto.
  - destruct (newest_first x z <? 0).
    + rewrite elem_of_cons. reflexivity.
    + rewrite !elem_of_cons, IH. tauto.
Qed.

Lemma Array_sort_elem_acc (y : Date) l acc :
  y ∈ foldl (fun sorted x => insert_by newest_first x sorted) acc l
  <-> y ∈ acc \/ y ∈ l.
Proof.
  revert acc. induction l as [|x l IH]; intros acc; simpl.
  - rewrite elem_of_nil. tauto.
  - rewrite IH, insert_by_elem, elem_of_cons. tauto.
Qed.

Lemma Array_sort_elem (y : Date) l :
  y ∈ Array_sort newest_first l <-> y ∈ l.
Proof.
  unfold Array_sort. rewrite Array_sort_elem_acc, elem_of_nil. tauto.
Qed.

Lemma insert_by_sorted (x : Date) l :
  newest_first_sorted l -> newest_first_sorted (insert_by newest_first x l).
Proof.
  unfold newest_first_sorted. induction l as [|z l IH]; intros Hs; simpl.
  - repeat constructor.
  - apply StronglySorted_inv in Hs as [Hl Hz].
    destruct (newest_first x z <? 0) eqn:Hcmp.
    + apply Z.ltb_lt in Hcmp. unfold newest_first in Hcmp.
      constructor; [constructor; assumption|].
      constructor; [lia|].
      eapply Forall_impl; [exact Hz|]. simpl. intros; lia.
    + apply Z.ltb_ge in Hcmp. unfold newest_first in Hcmp.
      constructor; [apply IH; exact Hl|].
      apply Forall_forall. intros y Hy.
      apply insert_by_elem in Hy as [->|Hy]; [lia|].
      rewrite Forall_forall in Hz. apply Hz. exact Hy.
Qed.

Lemma Array_sort_sorted_acc l acc :
  newest_first_sorted acc ->
  newest_first_sorted (foldl (fun sorted x => insert_by newest_first x sorted) acc l).
Proof.
  revert acc. induction l as [|x l IH]; intros acc Hacc; simpl; [exact Hacc|].
  apply IH, insert_by_sorted, Hacc.
Qed.

(** What [mtimes.sort(...)[0]] is: an element that no other exceeds. *)
Lemma Array_sort_head l :
  l <> [] ->
  exists d rest,
    Array_sort newest_first l = d :: rest /\
    d ∈ l /\ forall t, t ∈ l -> t <= d.
Proof.
  intros Hne.
  pose proof (Array_sort_sorted_acc l [] (SSorted_nil _)) as Hsorted.
  fold (Array_sort newest_first l) in Hsorted.
  unfold newest_first_sorted in Hsorted.
  destruct (Array_sort newest_first l) as [|d rest] eqn:Hsort.
  - destruct l as [|x l]; [congruence|].
    assert (Hx : x ∈ Array_sort newest_first (x :: l))
      by (apply Array_sort_elem; left).
    rewrite Hsort in Hx. inversion Hx.
  - exists d, rest. split; [reflexivity|].
    assert (Helem : forall t, t ∈ d :: rest <-> t ∈ l)
      by (intros t; rewrite <- Hsort; apply Array_sort_elem).
    split; [apply Helem; left|].
    intros t Ht. apply Helem in Ht.
    apply StronglySorted_inv in Hsorted as [_ Hd].
    apply elem_of_cons in Ht as [->|Ht]; [lia|].
    rewrite Forall_forall in Hd. apply Hd. exact Ht.
Qed.

End NewestFirst.

Lemma Promise_all_Resolved {A} (l : list A) :
  Promise_all (Resolved <$> l) = Resolved l.
Proof.
  induction l as [|x l IH]; [reflexivity|].
  rewrite fmap_cons. cbn [Promise_all]. now rewrite IH.
Qed.

(** Settling the mtimes of entries none of which has a rejected mtime
    gives their [stamps]. *)
Lemma settled_mtimes_are_stamps (es : list Entry) :
  (forall e err, e ∈ es -> e_mtime e <> Some (Rejected err)) ->
  forall w, exists w',
    mapM (fun e => settle match SimpleContext.getMTime e with
                          | Some mtime => await mtime
                          | None => Date_now
                          end) es w
    = Ret (Resolved <$> stamps (clock w) (ticks w) es) w'.
Proof.
  induction es as [|e es IH]; intros Hok w; simpl; [eauto|].
  assert (Hes : forall e' err, e' ∈ es -> e_mtime e' <> Some (Rejected err))
    by (intros e' err He'; apply Hok; now right).
  unfold SimpleContext.getMTime.
  destruct (e_mtime e) as [[t|err]|] eqn:He.
  - destruct (IH Hes w) as (w' & Hrest).
    exists w'. unfold mbind at 1, Async_bind at 1. simpl.
    now rewrite (bind_Ret _ _ _ _ _ Hrest).
  - exfalso. apply (Hok e err); [now left | exact He].
  - destruct (IH Hes (tick w)) as (w' & Hrest).
    exists w'. unfold mbind at 1, Async_bind at 1. simpl.
    fold (tick w). now rewrite (bind_Ret _ _ _ _ _ Hrest).
Qed.

Lemma stamps_nonempty clk n (es : list Entry) :
  (forall e err, e ∈ es -> e_mtime e <> Some (Rejected err)) ->
  es <> [] -> stamps clk n es <> [].
Proof.
  destruct es as [|e es]; [congruence|]. intros Hok _. simpl.
  destruct (e_mtime e) as [[t|err]|] eqn:He; try discriminate.
  exfalso. apply (Hok e err); [now left | exact He].
Qed.

Lemma composeMTime_array (es : list Entry) :
  es <> [] ->
  SimpleContext.composeMTime (VArray es) =
  (mtimes ← mapM (fun e => settle match SimpleContext.getMTime e with
                                  | Some mtime => await mtime
                                  | None => Date_now
                                  end) es;
   mret match Promise_all mtimes with
        | Rejected e => Rejected e
        | Resolved mtimes =>
            match Array_sort SimpleContext.newest_first mtimes with
            | newest :: _ => Resolved newest
            | [] => Rejected (TypeError "mtimes[0] is undefined")
            end
        end).
Proof. destruct es; [congruence | reflexivity]. Qed.

(** C9, as the code has it. On a context constructed from dependencies
    none of which carries the role "entries" and none of whose mtimes is a
    rejected promise, the mtime is a resolved date: the reading of the
    clock when there are no entries, and otherwise the latest of the
    [stamps] of the entries, where an entry without an mtime of its own
    counts for the reading of the clock taken for it. *)
Theorem context_mtime_is_newest_stamp input name entries w context w' :
  SimpleContext.new input name entries w = Ret context w' ->
  last_named "entries" entries = None ->
  (forall item err,
      item ∈ entries -> e_mtime (ne_entry item) <> Some (Rejected err)) ->
  exists d,
    context !! "mtime" = Some (VPromise (Resolved d)) /\
    (entries = [] -> d = clock w (ticks w)) /\
    (entries <> [] ->
       d ∈ stamps (clock w) (ticks w) (ne_entry <$> entries) /\
       forall t, t ∈ stamps (clock w) (ticks w) (ne_entry <$> entries) -> t <= d).
Proof.
  intros Hnew Hrole Hok.
  destruct (SimpleContext_new_eq _ _ _ _ _ _ Hnew) as (mt & Hmt & ->).
  rewrite bind_named_lookup, Hrole in Hmt.
  change (plain_context input name entries !! "entries")
    with (Some (VArray (ne_entry <$> entries))) in Hmt.
  cbv [default from_option id] in Hmt. rewrite lookup_insert_eq.
  destruct entries as [|item entries].
  - injection Hmt as <- _. exists (clock w (ticks w)).
    split; [reflexivity|]. split; [reflexivity | congruence].
  - set (es := ne_entry <$> item :: entries) in *.
    assert (Hes : forall e err, e ∈ es -> e_mtime e <> Some (Rejected err)).
    { intros e err He. apply list_elem_of_fmap in He as (it & -> & Hit).
      now apply Hok. }
    assert (Hne : es <> []) by discriminate.
    destruct (settled_mtimes_are_stamps es Hes w) as (w1 & Hsettled).
    rewrite (composeMTime_array es Hne) in Hmt.
    rewrite (bind_Ret _ _ _ _ _ Hsettled), Promise_all_Resolved in Hmt.
    destruct (Array_sort_head (stamps (clock w) (ticks w) es)
                (stamps_nonempty _ _ _ Hes Hne)) as (d & rest & Hsort & Hin & Hmax).
    rewrite Hsort in Hmt. injection Hmt as <- _.
    exists d. split; [reflexivity|]. split; [discriminate|].
    intros _. split; assumption.
Qed.

(** C9, as stated, fails. A context over the file entry [app.js] with
    mtime 5 and an entry that an action produced from text, which has no
    mtime: the composed mtime is 1000, the reading of the clock, while the
    only mtime among the dependency entries is 5. *)
Lemma composed_mtime_is_not_an_entry_mtime :
  exists context w',
    SimpleContext.new "site.js" None
      [mkNamedEntry None (Scenario.file_entry "app.js" 5 "src");
       mkNamedEntry None (Scenario.text_entry "banner" "text")]
      Scenario.empty_disk = Ret context w' /\
    context !! "mtime" = Some (VPromise (Resolved 1000)) /\
    own_mtimes [Scenario.file_entry "app.js" 5 "src";
                Scenario.text_entry "banner" "text"] = [5].
Proof.
  eexists _, _. split; [vm_compute; reflexivity|]. split; reflexivity.
Qed.

(** ** The theorems at work on the minifier scenario *)

(** [app.js] has no rule and is on disk: [exec] returns its bytes and its
    mtime; [lib.js] has no rule and is not on disk. *)
Lemma exec_unmatched_target_witness :
  (exists e w',
      exec 1 (mkPipeline [Scenario.minify_rule]) "app.js" None (Scenario.site 10 20)
        = Ret e w' /\
      e_contents e = Resolved (Buffer_from "src") /\
      e_mtime e = Some (Resolved 10)) /\
  exec 1 (mkPipeline [Scenario.minify_rule]) "lib.js" None (Scenario.site 10 20)
    = Throw (Error "no matching rule for lib.js") (tick (Scenario.site 10 20)).
Proof.
  split.
  - destruct (exec_unmatched_target 0 (mkPipeline [Scenario.minify_rule]) "app.js"
                None (Scenario.site 10 20) (tick (Scenario.site 10 20)) eq_refl)
      as [Hfile _].
    destruct (Hfile (mkStats 10 false) (Buffer_from "src") eq_refl eq_refl)
      as (e & w' & Hexec & Hcontents & _ & Hmtime & _).
    exists e, w'. repeat split; assumption.
  - destruct (exec_unmatched_target 0 (mkPipeline [Scenario.minify_rule]) "lib.js"
                None (Scenario.site 10 20) (tick (Scenario.site 10 20)) eq_refl)
      as [_ Habsent].
    exact (Habsent (SystemError "ENOENT") eq_refl).
Defined.

(** The guard on the minifier rule with the computed generator. With
    equal mtimes (10 and 10) the action runs and hands on the entry of
    [app.js]; with the target newer (20 against 10) the file entry of the
    target comes back, carrying 20. *)
Lemma staleness_guard_witness :
  exec 2 (mkPipeline [Scenario.copy_rule (Some Scenario.first_entry)])
       "app.min.js" None (Scenario.site 10 10)
    = Ret (Scenario.file_entry "app.js" 10 "src")
          (tick (tick (tick (tick (Scenario.site 10 10))))) /\
  exists e,
    exec 2 (mkPipeline [Scenario.copy_rule (Some Scenario.first_entry)])
         "app.min.js" None (Scenario.site 10 20)
      = Ret e (tick (tick (tick (tick (Scenario.site 10 20))))) /\
    e_path e = Some "app.min.js" /\ e_mtime e = Some (Resolved 20).
Proof.
  assert (Hguard : forall t_min,
             reaches_guard 1
               (mkPipeline [Scenario.copy_rule (Some Scenario.first_entry)])
               "app.min.js" None (Scenario.site 10 t_min)
               (Scenario.copy_rule (Some Scenario.first_entry)) Scenario.first_entry
               (Some t_min)
               [mkNamedEntry None (Scenario.file_entry "app.js" 10 "src")]
               (<["mtime" := VPromise (Resolved 10)]>
                  (plain_context "app.min.js" None
                     [mkNamedEntry None (Scenario.file_entry "app.js" 10 "src")]))
               10 (tick (tick (tick (Scenario.site 10 t_min))))).
  { intros t_min.
    exists (tick (Scenario.site 10 t_min)), [mkNamedDependency None "app.js"],
           (tick (Scenario.site 10 t_min)),
           (tick (tick (tick (Scenario.site 10 t_min)))),
           (tick (tick (tick (Scenario.site 10 t_min)))).
    repeat split; reflexivity. }
  split.
  - destruct (staleness_guard _ _ _ _ _ _ _ _ _ _ _ _ (Hguard 10)) as (Hrun & _).
    rewrite (Hrun 10 eq_refl); [reflexivity | discriminate | lia].
  - destruct (staleness_guard _ _ _ _ _ _ _ _ _ _ _ _ (Hguard 20)) as (_ & Hskip & _).
    destruct (Hskip 20 eq_refl) as (e & Hexec & Hmtime & Hpath & _).
    + right. lia.
    + exists e. repeat split; assumption.
Defined.

(** The minifier rule without an action, on a fresh target. *)
Lemma null_action_always_fails_witness :
  (forall e w',
      exec 2 (mkPipeline [Scenario.copy_rule None]) "app.min.js" None
           (Scenario.site 10 20) <> Ret e w') /\
  exec 2 (mkPipeline [Scenario.copy_rule None]) "app.min.js" None
       (Scenario.site 10 20)
    = Throw (Error "default actions not yet supported")
            (tick (tick (tick (Scenario.site 10 20)))).
Proof.
  destruct (null_action_always_fails 1 (mkPipeline [Scenario.copy_rule None])
              "app.min.js" None (Scenario.site 10 20) (Scenario.copy_rule None)
              (tick (Scenario.site 10 20)) eq_refl eq_refl) as [Hnever Hthrow].
  split; [exact Hnever|].
  exact (Hthrow [mkNamedDependency None "app.js"] (tick (Scenario.site 10 20))
           [mkNamedEntry None (Scenario.file_entry "app.js" 10 "src")]
           (tick (tick (tick (Scenario.site 10 20)))) eq_refl eq_refl).
Defined.



(** A context over [app.js] (mtime 5) and an entry made from text, on a
    clock that reads 1000: the composed mtime is 1000, the later of the
    two stamps 5 and 1000. *)
Lemma context_mtime_is_newest_stamp_witness :
  let entries :=
    [mkNamedEntry None (Scenario.file_entry "app.js" 5 "src");
     mkNamedEntry None (Scenario.text_entry "banner" "text")] in
  let context : Context :=
    <["mtime" := VPromise (Resolved 1000)]> (plain_context "site.js" None entries) in
  SimpleContext.new "site.js" None entries Scenario.empty_disk
    = Ret context (tick Scenario.empty_disk) /\
  exists d,
    context !! "mtime" = Some (VPromise (Resolved d)) /\
    d ∈ [5; 1000] /\ forall t, t ∈ [5; 1000] -> t <= d.
Proof.
  intros entries context.
  assert (Hnew : SimpleContext.new "site.js" None entries Scenario.empty_disk
                 = Ret context (tick Scenario.empty_disk)) by reflexivity.
  split; [exact Hnew|].
  destruct (context_mtime_is_newest_stamp _ _ _ _ _ _ Hnew eq_refl)
    as (d & Hmtime & _ & Hnewest).
  - intros item err Hin.
    apply elem_of_cons in Hin as [->|Hin]; [discriminate|].
    apply elem_of_cons in Hin as [->|Hin]; [discriminate|].
    inversion Hin.
  - exists d. split; [exact Hmtime|]. apply Hnewest. discriminate.
Defined.

(** A context over two dependencies, one with the role "src" and one with
    the role "entries": the first is bound under its role, the second has
    taken the place of the entry list. *)
Lemma named_bindings_witness :
  let entries :=
    [mkNamedEntry (Some "src") (Scenario.file_entry "app.js" 5 "src");
     mkNamedEntry (Some "entries") (Scenario.text_entry "banner" "text")] in
  let context : Context :=
    <["mtime" := VPromise (Resolved 1000)]>
      (<["entries" := VEntry (Scenario.text_entry "banner" "text")]>
         (<["src" := VEntry (Scenario.file_entry "app.js" 5 "src")]>
            (plain_context "site.js" None entries))) in
  SimpleContext.new "site.js" None entries Scenario.empty_disk
    = Ret context (tick Scenario.empty_disk) /\
  context !! "src" = Some (VEntry (Scenario.file_entry "app.js" 5 "src")) /\
  context !! "entries" = Some (VEntry (Scenario.text_entry "banner" "text")).
Proof.
  intros entries context.
  assert (Hnew : SimpleContext.new "site.js" None entries Scenario.empty_disk
                 = Ret context (tick Scenario.empty_disk)) by reflexivity.
  destruct (named_bindings _ _ _ _ _ _ Hnew) as (Hbound & Hentries & _ & _).
  split; [exact Hnew|]. split.
  - apply Hbound; [discriminate | discriminate | discriminate | reflexivity].
  - apply Hentries. reflexivity.
Defined.

(** * Further properties of the engine *)

(** ** Selection *)

(** X1. The first rule that matches wins. When the rules registered
    before a rule do not match the target and the rule does (patterns
    without flags), the selection loop returns that rule and leaves the
    world as it was; the rules registered after it are not consulted,
    whatever they are. *)
Theorem first_match_wins before r after input w :
  Forall (fun r0 => stateless (pattern r0) /\
                    re_match (pattern r0) input 0%nat = None) before ->
  stateless (pattern r) ->
  is_Some (re_match (pattern r) input 0%nat) ->
  find_rule (before ++ r :: after) input w = Ret (Some r) w.
Proof.
  intros Hbefore Hstateless [me Hmatch].
  induction Hbefore as [|r0 before [Hs0 Hnone] _ IH]; simpl.
  - assert (Htest : RegExp_test (pattern r) input w = Ret true w).
    { unfold RegExp_test.
      rewrite (bind_Ret _ _ _ _ _ (RegExp_exec_stateless _ input w Hstateless)).
      now rewrite Hmatch. }
    now rewrite (bind_Ret _ _ _ _ _ Htest).
  - assert (Htest : RegExp_test (pattern r0) input w = Ret false w).
    { unfold RegExp_test.
      rewrite (bind_Ret _ _ _ _ _ (RegExp_exec_stateless _ input w Hs0)).
      now rewrite Hnone. }
    rewrite (bind_Ret _ _ _ _ _ Htest). exact IH.
Qed.

(** Two rules match [bundle]; the one registered first is selected, also
    behind a rule that does not match. *)
Lemma first_match_wins_witness :
  find_rule
    ([Scenario.minify_rule] ++
     Scenario.bundle_rule :: [Scenario.bundle_with Scenario.refused_write])
    "bundle" Scenario.empty_disk
  = Ret (Some Scenario.bundle_rule) Scenario.empty_disk.
Proof.
  apply (first_match_wins [Scenario.minify_rule] Scenario.bundle_rule
           [Scenario.bundle_with Scenario.refused_write] "bundle"
           Scenario.empty_disk).
  - repeat constructor.
  - split; reflexivity.
  - eexists. reflexivity.
Defined.

(** ** Resolution of the dependencies *)

Lemma bind_Ret_inv {A B} (m : Async A) (f : A -> Async B) w b w' :
  (m ≫= f) w = Ret b w' -> exists a w1, m w = Ret a w1 /\ f a w1 = Ret b w'.
Proof.
  unfold mbind, Async_bind. destruct (m w) as [a w1| |]; try discriminate. eauto.
Qed.



Lemma exec_absent_leaf fuel p input name w w1 :
  find_rule (ruleSet p) input (tick w) = Ret None w1 ->
  (exists err, fsStat w input = inl err) ->
  exec (S fuel) p input name w
  = Throw (Error ("no matching rule for " +:+ input)) w1.
Proof.
  intros Hfind [err Hs].
  destruct (find_rule_returns (ruleSet p) input (tick w)) as (r & w1' & Hr & Henv).
  rewrite Hfind in Hr. injection Hr as <- <-.
  destruct Henv as (Hstat & _). simpl in Hstat.
  simpl. unfold exec_body.
  rewrite (bind_Ret _ _ _ _ _ (Date_now_eq w)).
  rewrite (bind_Ret _ _ _ _ _ Hfind).
  rewrite (bind_Ret _ _ _ _ _ (mtimeSafe_eq input w1)).
  rewrite Hstat, Hs. reflexivity.
Qed.

(** X3. A dependency that cannot be resolved fails the target, and the
    error names the dependency. When the dependencies before it resolve
    and it has neither a rule nor a file, [exec] on the target throws
    "no matching rule for" followed by the value of that dependency; the
    dependencies after it are not resolved and no action of the target
    runs. *)
Theorem missing_dependency_is_named fuel p input name w rule w1 ds1 d ds2 w2
    entries w3 w4 :
  find_rule (ruleSet p) input (tick w) = Ret (Some rule) w1 ->
  evalDependencies rule input w1 = Ret (Some (inr (ds1 ++ d :: ds2))) w2 ->
  resolve_dependencies (exec (S fuel) p) ds1 w2 = Ret entries w3 ->
  find_rule (ruleSet p) (d_value d) (tick w3) = Ret None w4 ->
  (exists err, fsStat w3 (d_value d) = inl err) ->
  exec (S (S fuel)) p input name w
  = Throw (Error ("no matching rule for " +:+ d_value d)) w4.
Proof.
  intros Hfind Hdeps Hres Hnone Habsent.
  pose proof (exec_absent_leaf fuel p (d_value d) (or_undefined (d_name d))
                w3 w4 Hnone Habsent) as Hchild.
  pose proof (resolve_dependencies_Throw (exec (S fuel) p) ds1 d ds2 w2 entries
                w3 _ w4 Hres Hchild) as Hloop.
  change (exec (S (S fuel)) p input name w)
    with (exec_body (exec (S fuel) p) p input name w).
  unfold exec_body.
  rewrite (bind_Ret _ _ _ _ _ (Date_now_eq w)).
  rewrite (bind_Ret _ _ _ _ _ Hfind).
  rewrite (bind_Ret _ _ _ _ _ (mtimeSafe_eq input w1)).
  apply bind_Throw.
  rewrite (bind_Ret _ _ _ _ _ Hdeps).
  now apply bind_Throw.
Qed.

(** [app.min.js] is on disk, its source [app.js] is not. *)
Lemma missing_dependency_is_named_witness :
  exec 2 (mkPipeline [Scenario.copy_rule (Some Scenario.first_entry)])
       "app.min.js" None
       (Scenario.disk (<["app.min.js" := (20, Buffer_from "min")]> ∅)
                      Scenario.clock_1000)
  = Throw (Error "no matching rule for app.js")
          (tick (tick (Scenario.disk (<["app.min.js" := (20, Buffer_from "min")]> ∅)
                                     Scenario.clock_1000))).
Proof.
  apply (missing_dependency_is_named 0
           (mkPipeline [Scenario.copy_rule (Some Scenario.first_entry)])
           "app.min.js" None
           (Scenario.disk (<["app.min.js" := (20, Buffer_from "min")]> ∅)
                          Scenario.clock_1000)
           (Scenario.copy_rule (Some Scenario.first_entry))
           (tick (Scenario.disk (<["app.min.js" := (20, Buffer_from "min")]> ∅)
                                Scenario.clock_1000))
           [] (mkNamedDependency None "app.js") []
           (tick (Scenario.disk (<["app.min.js" := (20, Buffer_from "min")]> ∅)
                                Scenario.clock_1000))
           []
           (tick (Scenario.disk (<["app.min.js" := (20, Buffer_from "min")]> ∅)
                                Scenario.clock_1000))).
  - reflexivity.
  - reflexivity.
  - reflexivity.
  - reflexivity.
  - exists (SystemError "ENOENT"). reflexivity.
Defined.

(** ** Dependency generators *)

Lemma consume_all_app {A} (l1 l2 : list (IterableIterator A)) :
  consume_all (l1 ++ l2) = consume_all [consume_all l1; consume_all l2].
Proof.
  induction l1 as [|[e|items] l1 IH]; simpl.
  - destruct (consume_all l2); [reflexivity|]. now rewrite app_nil_r.
  - reflexivity.
  - rewrite IH. simpl.
    destruct (consume_all l1) as [e|items1]; [reflexivity|].
    destruct (consume_all l2) as [e|items2]; [reflexivity|].
    now rewrite !app_nil_r, app_assoc.
Qed.

Lemma consume_all_pair {A} (x y : IterableIterator A) rest :
  consume_all (x :: y :: rest) = consume_all (consume_all [x; y] :: rest).
Proof.
  simpl. destruct x as [e|xs]; [reflexivity|].
  destruct y as [e|ys]; [reflexivity|].
  destruct (consume_all rest) as [e|zs]; [reflexivity|].
  now rewrite app_nil_r, app_assoc.
Qed.

Lemma create_Composite first second input m :
  create (CompositeDependencyGeneratorAdapter first second) input m
  = consume_all [create first input m; create second input m].
Proof.
  simpl. destruct (create first input m) as [e|items1]; [reflexivity|].
  destruct (create second input m) as [e|items2]; [reflexivity|].
  now rewrite app_nil_r.
Qed.

(** X5. Composing adapters is concatenation: it is associative, and the
    adapter without dependencies is its unit on both sides. The sequence
    of a composite does not depend on how the composition was nested. *)
Theorem composite_adapter_laws a b c input m :
  create (CompositeDependencyGeneratorAdapter
            (CompositeDependencyGeneratorAdapter a b) c) input m
  = create (CompositeDependencyGeneratorAdapter
              a (CompositeDependencyGeneratorAdapter b c)) input m /\
  create (CompositeDependencyGeneratorAdapter NoDependencies_instance a) input m
  = create a input m /\
  create (CompositeDependencyGeneratorAdapter a NoDependencies_instance) input m
  = create a input m.
Proof.
  split; [|split].
  - rewrite !create_Composite.
    destruct (create a input m) as [e|xs]; [reflexivity|].
    destruct (create b input m) as [e|ys]; [reflexivity|].
    destruct (create c input m) as [e|zs]; [reflexivity|].
    simpl. now rewrite !app_nil_r, app_assoc.
  - rewrite create_Composite. simpl.
    destruct (create a input m); [reflexivity|]. now rewrite app_nil_r.
  - rewrite create_Composite. simpl.
    destruct (create a input m); [reflexivity|]. now rewrite !app_nil_r.
Qed.

(** Declaring further dependencies on a builder that has some: the
    adapter yields what it yielded, then what each declaration yields, and
    the rest of the builder is untouched. *)
Lemma addDependency_fold ds b a :
  rb_dependencies b = Some a ->
  exists a',
    rb_dependencies (foldl (fun b d => addDependency d b) b ds) = Some a' /\
    rb_pattern (foldl (fun b d => addDependency d b) b ds) = rb_pattern b /\
    (forall input m,
        create a' input m
        = consume_all (create a input m ::
                       ((fun d => create (declared_adapter d) input m) <$> ds))).
Proof.
  revert b a. induction ds as [|d ds IH]; intros b a Hb; simpl.
  - exists a. split; [exact Hb|]. split; [reflexivity|].
    intros input m. destruct (create a input m); [reflexivity|].
    now rewrite app_nil_r.
  - edestruct (IH (addDependency d b)) as (a' & Ha' & Hpat & Hcreate).
    { unfold addDependency at 1. simpl. rewrite Hb. reflexivity. }
    exists a'. split; [exact Ha'|]. split; [exact Hpat|].
    intros input m. rewrite Hcreate.
    change (create (CompositeDependencyGeneratorAdapter a
                      (SimpleDependencyGeneratorAdapter
                         (inr match d with
                              | inl dependency => fun _ _ => inr (ResultString dependency)
                              | inr dependency => dependency
                              end))) input m)
      with (create (CompositeDependencyGeneratorAdapter a (declared_adapter d))
                   input m).
    rewrite create_Composite. symmetry. apply consume_all_pair.
Qed.

(** X4. The dependencies declared on a builder come out in declaration
    order. A rule built after the declarations [d], [ds] (strings or
    generators) yields, for every match, what the first declaration
    yields, then the second, and so on; when the generator of one of them
    throws, consuming the sequence throws that exception. *)
Theorem dependencies_accumulate_in_order RegExp_new b d ds r :
  rb_dependencies b = None ->
  build RegExp_new (foldl (fun b d => addDependency d b) b (d :: ds)) = inr r ->
  forall input m,
    create (dependencies r) input m
    = consume_all ((fun d => create (declared_adapter d) input m) <$> d :: ds).
Proof.
  intros Hnone Hbuild input m. simpl in Hbuild.
  destruct (addDependency_fold ds (addDependency d b) (declared_adapter d))
    as (a' & Ha' & _ & Hcreate).
  { unfold addDependency. simpl. now rewrite Hnone. }
  unfold build in Hbuild.
  destruct (match rb_pattern _ with inl s => RegExp_new s | inr re => inr re end);
    [discriminate|].
  rewrite Ha' in Hbuild. simpl in Hbuild. injection Hbuild as <-.
  simpl dependencies. apply Hcreate.
Qed.

(** A literal dependency, then the computed one of the minifier rule. *)
Lemma dependencies_accumulate_in_order_witness :
  create
    (CompositeDependencyGeneratorAdapter
       (declared_adapter (inl "vendor.js"))
       (declared_adapter (inr Scenario.stem_js)))
    "app.min.js" [Some "app.min.js"; Some "app"]
  = inr [mkNamedDependency None "vendor.js"; mkNamedDependency None "app.js"].
Proof.
  exact (dependencies_accumulate_in_order Scenario.no_source
           (RuleBuilder_new (inr Scenario.re_min_js) (Some Scenario.first_entry))
           (inl "vendor.js") [inr Scenario.stem_js]
           (mkRule Scenario.re_min_js (Some Scenario.first_entry) []
              (CompositeDependencyGeneratorAdapter
                 (declared_adapter (inl "vendor.js"))
                 (declared_adapter (inr Scenario.stem_js))))
           eq_refl eq_refl "app.min.js" [Some "app.min.js"; Some "app"]).
Defined.

(** ** The decorators of a builder *)

(** X6. [insertDecorator] puts the decorator at the index it is given (at
    the end when the index is the length or more, counted from the end
    when it is negative, at the front when that falls before the start)
    and keeps the decorators that were there, in their order; pattern,
    action and dependencies of the builder are untouched. *)
Theorem insertDecorator_keeps_order index d b :
  let before := rb_decorators b in
  let after := rb_decorators (insertDecorator index d b) in
  let pos := insert_position index (length before) in
  (pos <= length before)%nat /\
  after !! pos = Some d /\
  delete pos after = before /\
  length after = S (length before) /\
  rb_pattern (insertDecorator index d b) = rb_pattern b /\
  rb_action (insertDecorator index d b) = rb_action b /\
  rb_dependencies (insertDecorator index d b) = rb_dependencies b.
Proof.
  intros before after pos. subst after pos. unfold insertDecorator, insert_position.
  simpl. fold before.
  destruct (Z.of_nat (length before) <=? index) eqn:Hend.
  - split; [lia|]. split; [now apply list_lookup_middle|].
    split; [|split; [|repeat split]].
    + rewrite delete_middle. apply app_nil_r.
    + rewrite length_app. simpl. lia.
  - apply Z.leb_gt in Hend. unfold Array_splice_insert. fold before.
    set (start := if index <? 0
                  then Z.to_nat (Z.max (Z.of_nat (length before) + index) 0)
                  else Z.to_nat index).
    assert (Hstart : (start <= length before)%nat).
    { subst start. destruct (index <? 0) eqn:Hneg; lia. }
    assert (Hlen : length (take start before) = start)
      by (rewrite length_take; lia).
    split; [exact Hstart|]. split; [now apply list_lookup_middle|].
    split; [|split; [|repeat split]].
    + rewrite <- Hlen at 1. rewrite delete_middle. apply take_drop.
    + rewrite length_app. simpl. rewrite Hlen, length_drop. lia.
Qed.

(** ** Loggers *)

Lemma console_each_snd method items :
  (console_each method items).*2 = items.
Proof.
  unfold console_each. induction items as [|x items IH]; [reflexivity|].
  rewrite !fmap_cons. simpl. now rewrite IH.
Qed.

Lemma console_each_method method items call :
  call ∈ console_each method items -> call.1 = method.
Proof.
  unfold console_each. intros Hin.
  apply list_elem_of_fmap in Hin as (x & -> & _). reflexivity.
Qed.

Lemma filter_partition_Permutation (args : list LogArg) :
  List.filter (fun e => negb (instanceof_Error e)) args
  ++ List.filter instanceof_Error args ≡ₚ args.
Proof.
  induction args as [|a args IH]; simpl; [reflexivity|].
  destruct (instanceof_Error a); simpl.
  - rewrite <- Permutation_middle. now constructor.
  - now constructor.
Qed.

(** X11. The console logger writes every argument exactly once. Whatever
    the level, the calls made on the console carry the messages in their
    order and then the errors in their order, a rearrangement of the
    arguments, and all of them go to one and the same console method. *)
Theorem ConsoleLogger_writes_each_argument_once logLevel args :
  (ConsoleLogger.log logLevel args).*2
  = List.filter (fun e => negb (instanceof_Error e)) args
    ++ List.filter instanceof_Error args /\
  (ConsoleLogger.log logLevel args).*2 ≡ₚ args /\
  exists method,
    forall call, call ∈ ConsoleLogger.log logLevel args -> call.1 = method.
Proof.
  assert (Hsnd : (ConsoleLogger.log logLevel args).*2
                 = List.filter (fun e => negb (instanceof_Error e)) args
                   ++ List.filter instanceof_Error args).
  { unfold ConsoleLogger.log.
    destruct (logLevel <? LogLevel.information);
      [|destruct (logLevel <? LogLevel.warning);
        [|destruct (logLevel <? LogLevel.error)]];
      now rewrite fmap_app, !console_each_snd. }
  split; [exact Hsnd|]. split.
  - rewrite Hsnd. apply filter_partition_Permutation.
  - unfold ConsoleLogger.log.
    destruct (logLevel <? LogLevel.information);
      [|destruct (logLevel <? LogLevel.warning);
        [|destruct (logLevel <? LogLevel.error)]];
      eexists; intros call Hin;
      apply elem_of_app in Hin as [Hin|Hin];
      apply console_each_method in Hin; exact Hin.
Qed.

Lemma ConsoleLogger_method logLevel args call :
  call ∈ ConsoleLogger.log logLevel args ->
  call.1 = (if logLevel <? LogLevel.information then console_debug
            else if logLevel <? LogLevel.warning then console_log
            else if logLevel <? LogLevel.error then console_warn
            else console_error).
Proof.
  unfold ConsoleLogger.log.
  destruct (logLevel <? LogLevel.information);
    [|destruct (logLevel <? LogLevel.warning);
      [|destruct (logLevel <? LogLevel.error)]];
    intros Hin; apply elem_of_app in Hin as [Hin|Hin];
    apply console_each_method in Hin; exact Hin.
Qed.

(** X12. A pipeline given a number as logger filters by level and keeps
    the severity order. A call at a level below the minimum writes
    nothing; a call at the minimum or above writes what the plain console
    logger writes; and of two calls that write, the one at the higher
    level never goes to a console method of lower severity. *)
Theorem filtered_logger_threshold minLogLevel logLevel args :
  (logLevel < minLogLevel ->
     log (Pipeline_logger (Some (inl minLogLevel))) logLevel args = []) /\
  (minLogLevel <= logLevel ->
     log (Pipeline_logger (Some (inl minLogLevel))) logLevel args
     = log (Pipeline_logger None) logLevel args) /\
  (forall logLevel' args' call call',
     logLevel <= logLevel' ->
     call ∈ log (Pipeline_logger (Some (inl minLogLevel))) logLevel args ->
     call' ∈ log (Pipeline_logger (Some (inl minLogLevel))) logLevel' args' ->
     severity call.1 <= severity call'.1).
Proof.
  simpl. unfold FilteredConsoleLogger.log. split; [|split].
  - intros Hlt. apply Z.leb_gt in Hlt. now rewrite Hlt.
  - intros Hle. apply Z.leb_le in Hle. now rewrite Hle.
  - intros logLevel' args' call call' Hle Hin Hin'.
    destruct (minLogLevel <=? logLevel); [|inversion Hin].
    destruct (minLogLevel <=? logLevel'); [|inversion Hin'].
    rewrite (ConsoleLogger_method _ _ _ Hin), (ConsoleLogger_method _ _ _ Hin').
    unfold LogLevel.information, LogLevel.warning, LogLevel.error.
    destruct (logLevel <? 2) eqn:H2; destruct (logLevel' <? 2) eqn:H2';
      destruct (logLevel <? 3) eqn:H3; destruct (logLevel' <? 3) eqn:H3';
      destruct (logLevel <? 4) eqn:H4; destruct (logLevel' <? 4) eqn:H4';
      simpl; lia.
Qed.

(** With the minimum at [warning], [info] writes nothing and [error]
    writes as the plain logger does. *)
Lemma filtered_logger_threshold_witness :
  Logger_info (Pipeline_logger (Some (inl LogLevel.warning))) [inl "built"] = [] /\
  Logger_error (Pipeline_logger (Some (inl LogLevel.warning)))
               [inl "failed"; inr (Error "boom")]
  = Logger_error (Pipeline_logger None) [inl "failed"; inr (Error "boom")].
Proof.
  split.
  - destruct (filtered_logger_threshold LogLevel.warning LogLevel.information
                [inl "built"]) as (Hbelow & _).
    apply Hbelow. reflexivity.
  - destruct (filtered_logger_threshold LogLevel.warning LogLevel.error
                [inl "failed"; inr (Error "boom")]) as (_ & Habove & _).
    apply Habove. discriminate.
Defined.

(** ** More on the context object *)

(** X9. A dependency with the role "entries" also resets the composed
    mtime. The constructor composes the mtime from the property
    [entries], which by then holds that dependency's entry: the mtime of
    the context is the reading of the clock, whatever mtimes the
    dependencies carry, so a target whose file is not newer than the
    present is never found up to date. *)
Theorem entries_role_resets_mtime input name entries w context w' e :
  SimpleContext.new input name entries w = Ret context w' ->
  last_named "entries" entries = Some e ->
  context !! "mtime" = Some (VPromise (Resolved (clock w (ticks w)))) /\
  context !! "entries" = Some (VEntry e) /\
  w' = tick w /\
  forall T, T <= clock w (ticks w) ->
            up_to_date (Some T) entries (clock w (ticks w)) = false.
Proof.
  intros Hnew Hrole.
  destruct (SimpleContext_new_eq _ _ _ _ _ _ Hnew) as (mt & Hmt & ->).
  rewrite bind_named_lookup, Hrole in Hmt.
  change (bindable "entries") with true in Hmt.
  cbv [default from_option id] in Hmt.
  injection Hmt as <- <-.
  split; [apply lookup_insert_eq|]. split; [|split; [reflexivity|]].
  - rewrite lookup_insert_ne by discriminate.
    rewrite bind_named_lookup, Hrole. reflexivity.
  - intros T HT. apply up_to_date_false; [|exact HT].
    intros ->. discriminate.
Qed.

(** The entry of [app.js] (mtime 5) under the role "entries", on a clock
    that reads 1000. *)
Lemma entries_role_resets_mtime_witness :
  let entries :=
    [mkNamedEntry (Some "entries") (Scenario.file_entry "app.js" 5 "src")] in
  let context : Context :=
    <["mtime" := VPromise (Resolved 1000)]>
      (<["entries" := VEntry (Scenario.file_entry "app.js" 5 "src")]>
         (plain_context "app.min.js" None entries)) in
  SimpleContext.new "app.min.js" None entries Scenario.empty_disk
    = Ret context (tick Scenario.empty_disk) /\
  context !! "mtime" = Some (VPromise (Resolved 1000)) /\
  up_to_date (Some 900) entries 1000 = false.
Proof.
  intros entries context.
  assert (Hnew : SimpleContext.new "app.min.js" None entries Scenario.empty_disk
                 = Ret context (tick Scenario.empty_disk)) by reflexivity.
  destruct (entries_role_resets_mtime _ _ _ _ _ _
              (Scenario.file_entry "app.js" 5 "src") Hnew eq_refl)
    as (Hmtime & _ & _ & Hstale).
  split; [exact Hnew|]. split; [exact Hmtime|].
  apply (Hstale 900). vm_compute. discriminate.
Defined.

Lemma mapM_app_Ret {A B} (f : A -> Async B) l1 l2 w ys1 w1 ys2 w2 :
  mapM f l1 w = Ret ys1 w1 -> mapM f l2 w1 = Ret ys2 w2 ->
  mapM f (l1 ++ l2) w = Ret (ys1 ++ ys2) w2.
Proof.
  revert w ys1. induction l1 as [|x l1 IH]; intros w ys1; simpl.
  - intros [= <- <-] H2. exact H2.
  - intros H1 H2.
    apply bind_Ret_inv in H1 as (y & wa & Hy & H1).
    apply bind_Ret_inv in H1 as (ys & wb & Hys & H1).
    injection H1 as <- <-.
    rewrite (bind_Ret _ _ _ _ _ Hy).
    now rewrite (bind_Ret _ _ _ _ _ (IH _ _ Hys H2)).
Qed.

Lemma Promise_all_Rejected {A} (l : list A) err (ps : list (Promise A)) :
  Promise_all ((Resolved <$> l) ++ Rejected err :: ps) = Rejected err.
Proof.
  induction l as [|x l IH]; [reflexivity|].
  rewrite fmap_cons. cbn [app Promise_all]. now rewrite IH.
Qed.

(** X8. A dependency entry whose mtime cannot be had fails the context.
    On a context none of whose dependencies carries the role "entries",
    when the mtime promise of one entry is rejected and that of no other
    entry is, the mtime of the context is rejected with the same
    exception, and awaiting it, as [exec] does before it decides on the
    action, throws that exception. With a single rejection the outcome
    does not depend on the order in which the promises settle. *)
Theorem rejected_mtime_fails_the_context input name before item after w
    context w' err :
  SimpleContext.new input name (before ++ item :: after) w = Ret context w' ->
  last_named "entries" (before ++ item :: after) = None ->
  (forall it e,
      it ∈ before ++ after -> e_mtime (ne_entry it) <> Some (Rejected e)) ->
  e_mtime (ne_entry item) = Some (Rejected err) ->
  context !! "mtime" = Some (VPromise (Rejected err)) /\
  forall w0, context_mtime context w0 = Throw err w0.
Proof.
  intros Hnew Hrole Hothers Hitem.
  assert (Hbefore : forall it e,
             it ∈ before -> e_mtime (ne_entry it) <> Some (Rejected e)).
  { intros it e Hin. apply Hothers. apply elem_of_app. now left. }
  destruct (SimpleContext_new_eq _ _ _ _ _ _ Hnew) as (mt & Hmt & ->).
  rewrite bind_named_lookup, Hrole in Hmt.
  change (plain_context input name (before ++ item :: after) !! "entries")
    with (Some (VArray (ne_entry <$> before ++ item :: after))) in Hmt.
  cbv [default from_option id] in Hmt.
  assert (Hne : ne_entry <$> before ++ item :: after <> [])
    by (rewrite fmap_app, fmap_cons; intros H; now apply app_eq_nil in H as [_ H]).
  rewrite (composeMTime_array _ Hne) in Hmt.
  rewrite fmap_app, fmap_cons in Hmt.
  destruct (settled_mtimes_are_stamps (ne_entry <$> before)) with (w := w)
    as (w1 & H1).
  { intros e0 e Hin. apply list_elem_of_fmap in Hin as (it & -> & Hit).
    now apply Hbefore. }
  destruct (mapM_returns _ (ne_entry <$> after) getMTime_settles w1)
    as (ps & w2 & H2).
  assert (H3 : mapM (fun e => settle match SimpleContext.getMTime e with
                                     | Some mtime => await mtime
                                     | None => Date_now
                                     end)
                    (ne_entry item :: (ne_entry <$> after)) w1
               = Ret (Rejected err :: ps) w2).
  { simpl. unfold SimpleContext.getMTime. rewrite Hitem.
    unfold mbind at 1, Async_bind at 1. simpl.
    now rewrite (bind_Ret _ _ _ _ _ H2). }
  rewrite (bind_Ret _ _ _ _ _ (mapM_app_Ret _ _ _ _ _ _ _ _ H1 H3)) in Hmt.
  rewrite Promise_all_Rejected in Hmt. injection Hmt as <- _.
  split; [apply lookup_insert_eq|].
  intros w0. unfold context_mtime. now rewrite lookup_insert_eq.
Qed.

(** The entry of [app.js], then an entry whose [stat] was refused. *)
Lemma rejected_mtime_fails_the_context_witness :
  let refused :=
    mkEntry "gone.js" (Rejected (SystemError "EACCES")) (Rejected (SystemError "EACCES"))
            (Some "gone.js") (Some "gone.js") (Some (Rejected (SystemError "EACCES"))) in
  let entries :=
    [mkNamedEntry None (Scenario.file_entry "app.js" 5 "src");
     mkNamedEntry None refused] in
  let context : Context :=
    <["mtime" := VPromise (Rejected (SystemError "EACCES"))]>
      (plain_context "site.js" None entries) in
  SimpleContext.new "site.js" None entries Scenario.empty_disk
    = Ret context Scenario.empty_disk /\
  context_mtime context Scenario.empty_disk
    = Throw (SystemError "EACCES") Scenario.empty_disk.
Proof.
  intros refused entries context.
  assert (Hnew : SimpleContext.new "site.js" None
                   ([mkNamedEntry None (Scenario.file_entry "app.js" 5 "src")]
                    ++ mkNamedEntry None refused :: [])
                   Scenario.empty_disk
                 = Ret context Scenario.empty_disk) by reflexivity.
  split; [exact Hnew|].
  destruct (rejected_mtime_fails_the_context _ _ _ _ _ _ _ _
              (SystemError "EACCES") Hnew eq_refl) as (_ & Hthrow).
  - intros it e Hin. apply elem_of_app in Hin as [Hin|Hin]; [|inversion Hin].
    apply list_elem_of_singleton in Hin as ->. discriminate.
  - reflexivity.
  - apply Hthrow.
Defined.

(** ** What [exec] returns *)

Lemma fmap_Ret_inv {A B} (f : A -> B) (m : Async A) w b w' :
  (f <$> m) w = Ret b w' -> exists a, m w = Ret a w' /\ b = f a.
Proof.
  unfold fmap, Async_fmap. intros H.
  apply bind_Ret_inv in H as (a & w1 & Ha & H). injection H as <- <-. eauto.
Qed.

(** Where a returned entry comes from: it is the file entry of the
    target, or the wrapped result of the action of a rule of the set, run
    on the context of the resolved dependencies. *)
Lemma exec_body_Ret_inv exec_ p input name w e w' :
  exec_body exec_ p input name w = Ret e w' ->
  (exists mt w1 w2,
      SimpleFileEntry (or_else name input) input None mt w1 = Ret e w2) \/
  (exists rule act rawDeps entries context r w1 w2 w3 w4 w5,
      In rule (ruleSet p) /\ action rule = Some act /\
      resolve_dependencies exec_ rawDeps w1 = Ret entries w2 /\
      SimpleContext.new input name entries w2 = Ret context w3 /\
      act context w4 = Ret r w5 /\ e = wrap_result name input r).
Proof.
  unfold exec_body. intros H.
  apply bind_Ret_inv in H as (ts & w0 & _ & H).
  apply bind_Ret_inv in H as (rule & w1 & Hfind & H).
  apply bind_Ret_inv in H as (mtime & w2 & _ & H).
  apply bind_Ret_inv in H as (result & w3 & Hresult & H).
  apply bind_Ret_inv in H as (diff & w4 & _ & H). injection H as <- <-.
  destruct rule as [rule|].
  - apply bind_Ret_inv in Hresult as (rawDepsOrNull & w5 & _ & Hresult).
    destruct rawDepsOrNull as [[err|rawDeps]|]; try discriminate.
    apply bind_Ret_inv in Hresult as (entries & w6 & Hres & Hresult).
    destruct (action rule) as [act|] eqn:Hact; [|discriminate].
    apply bind_Ret_inv in Hresult as (context & w7 & Hctx & Hresult).
    apply bind_Ret_inv in Hresult as (depMTime & w8 & _ & Hresult).
    destruct (up_to_date mtime entries depMTime).
    + left. eauto.
    + right. apply fmap_Ret_inv in Hresult as (r & Hr & ->).
      exists rule, act, rawDeps, entries, context, r, w5, w6, w7, w8, w3.
      repeat split; try assumption.
      eapply find_rule_In; exact Hfind.
  - destruct mtime as [mtime|]; [|discriminate]. left. eauto.
Qed.

Lemma SimpleFileEntry_decodes name path contents mtime w e w' :
  SimpleFileEntry name path contents mtime w = Ret e w' -> decodes e.
Proof.
  unfold SimpleFileEntry. intros H.
  apply bind_Ret_inv in H as (mt & w1 & _ & H).
  apply bind_Ret_inv in H as (c & w2 & _ & H).
  injection H as <- _. reflexivity.
Qed.

Lemma resolve_dependencies_Forall (P : Entry -> Prop) exec_ rawDeps w entries w' :
  (forall i n w0 e w1, exec_ i n w0 = Ret e w1 -> P e) ->
  resolve_dependencies exec_ rawDeps w = Ret entries w' ->
  Forall (fun item => P (ne_entry item)) entries.
Proof.
  intros Hexec. unfold resolve_dependencies. revert w entries.
  induction rawDeps as [|d rawDeps IH]; intros w entries; simpl.
  - intros [= <- _]. constructor.
  - intros H.
    apply bind_Ret_inv in H as (item & w1 & Hitem & H).
    apply bind_Ret_inv in H as (rest & w2 & Hrest & H).
    injection H as <- <-.
    apply bind_Ret_inv in Hitem as (e & w0 & He & Hitem).
    injection Hitem as <- <-.
    constructor; [eapply Hexec; exact He | eapply IH; exact Hrest].
Qed.

Lemma bind_named_decodes items (this : Context) :
  context_decodes this ->
  Forall (fun item => decodes (ne_entry item)) items ->
  context_decodes (foldl SimpleContext.bind_named this items).
Proof.
  intros Hthis Hitems. revert this Hthis.
  induction Hitems as [|item items Hitem _ IH]; intros this Hthis; [exact Hthis|].
  simpl. apply IH.
  unfold SimpleContext.bind_named, SimpleContext.set_property.
  destruct (ne_name item) as [k|]; [|exact Hthis].
  destruct (truthy (Some k)); [|exact Hthis].
  destruct (String.eqb k "__proto__"); [exact Hthis|].
  intros key v. destruct (decide (k = key)) as [->|Hne].
  - rewrite lookup_insert_eq. intros [= <-]. exact Hitem.
  - rewrite lookup_insert_ne by exact Hne. apply Hthis.
Qed.

Lemma SimpleContext_new_decodes input name entries w context w' :
  Forall (fun item => decodes (ne_entry item)) entries ->
  SimpleContext.new input name entries w = Ret context w' ->
  context_decodes context.
Proof.
  intros Hentries Hnew.
  destruct (SimpleContext_new_eq _ _ _ _ _ _ Hnew) as (mt & _ & ->).
  intros key v. destruct (decide ("mtime" = key)) as [<-|Hne].
  - rewrite lookup_insert_eq. intros [= <-]. exact I.
  - rewrite lookup_insert_ne by exact Hne.
    apply bind_named_decodes; [|exact Hentries].
    clear key v Hne. intros key v. unfold plain_context.
    destruct (decide ("entries" = key)) as [<-|Hne1].
    { rewrite lookup_insert_eq. intros [= <-].
      apply Forall_fmap. exact Hentries. }
    rewrite lookup_insert_ne by exact Hne1.
    destruct (decide ("name" = key)) as [<-|Hne2].
    { rewrite lookup_insert_eq. intros [= <-]. now destruct name. }
    rewrite lookup_insert_ne by exact Hne2.
    destruct (decide ("input" = key)) as [<-|Hne3].
    { rewrite lookup_insert_eq. intros [= <-]. exact I. }
    rewrite lookup_insert_ne by exact Hne3.
    rewrite lookup_empty. discriminate.
Qed.

(** X7. The engine keeps the invariant of entries: the string form is the
    decoding of the byte form. Provided the actions of the rules, run on a
    context whose entries decode, return only entries that decode and
    only strings that come back from their own encoding, every entry that
    [exec] returns decodes, be it the file entry of a target, the wrapped
    bytes or text of an action, or an entry an action handed on. *)
Theorem exec_entries_decode p :
  (forall rule act,
      In rule (ruleSet p) -> action rule = Some act -> returns_decodable act) ->
  forall fuel input name w e w',
    exec fuel p input name w = Ret e w' -> decodes e.
Proof.
  intros Hacts. induction fuel as [|fuel IH]; intros input name w e w' Hexec;
    [discriminate|].
  change (exec_body (exec fuel p) p input name w = Ret e w') in Hexec.
  apply exec_body_Ret_inv in Hexec
    as [(mt & w1 & w2 & Hfile)
       |(rule & act & rawDeps & entries & context & r & w1 & w2 & w3 & w4 & w5
         & Hin & Hact & Hres & Hctx & Hrun & ->)].
  - eapply SimpleFileEntry_decodes; exact Hfile.
  - assert (Hcontext : context_decodes context).
    { eapply SimpleContext_new_decodes; [|exact Hctx].
      eapply resolve_dependencies_Forall; [|exact Hres].
      intros i n w0 e w6 He. eapply IH; exact He. }
    pose proof (Hacts rule act Hin Hact context w4 r w5 Hcontext Hrun) as Hr.
    destruct r as [s|b|e1].
    + unfold decodes, wrap_result. simpl. now rewrite Hr.
    + reflexivity.
    + exact Hr.
Qed.

(** The action that hands on the first dependency returns no string and
    only entries of its context; the minifier rule on a stale target
    returns the entry of [app.js]. *)
Lemma exec_entries_decode_witness :
  exec 2 (mkPipeline [Scenario.copy_rule (Some Scenario.first_entry)])
       "app.min.js" None (Scenario.site 10 10)
    = Ret (Scenario.file_entry "app.js" 10 "src")
          (tick (tick (tick (tick (Scenario.site 10 10))))) /\
  decodes (Scenario.file_entry "app.js" 10 "src").
Proof.
  split; [reflexivity|].
  apply (exec_entries_decode
           (mkPipeline [Scenario.copy_rule (Some Scenario.first_entry)]))
    with (fuel := 2%nat) (input := "app.min.js") (name := None)
         (w := Scenario.site 10 10)
         (w' := tick (tick (tick (tick (Scenario.site 10 10)))));
    [|reflexivity].
  intros rule act [<-|[]] [= <-] context w r w' Hcontext.
  unfold Scenario.first_entry.
  destruct (context !! "entries") as [[| | |[|entry es]|]|] eqn:Hentries;
    try discriminate.
  intros [= <- _]. specialize (Hcontext _ _ Hentries).
  now apply Forall_cons in Hcontext as [He _].
Defined.

(** ** Failing generators *)

(** X13. An exception of a dependency generator fails [exec] with that
    exception. When the selected rule (pattern without flags) matches and
    consuming its dependency sequence throws, [exec] throws the same
    exception, before any dependency is resolved, before the context is
    built and whether or not the rule has an action. *)
Theorem generator_exception_fails_exec fuel p input name w rule w1 m me e :
  find_rule (ruleSet p) input (tick w) = Ret (Some rule) w1 ->
  stateless (pattern rule) ->
  re_match (pattern rule) input 0%nat = Some (m, me) ->
  create (dependencies rule) input m = inl e ->
  exec (S fuel) p input name w = Throw e w1.
Proof.
  intros Hfind Hstateless Hmatch Hcreate.
  assert (Hdeps : evalDependencies rule input w1 = Ret (Some (inl e)) w1).
  { unfold evalDependencies.
    rewrite (bind_Ret _ _ _ _ _ (RegExp_exec_stateless _ input w1 Hstateless)).
    rewrite Hmatch. simpl. now rewrite Hcreate. }
  simpl. unfold exec_body.
  rewrite (bind_Ret _ _ _ _ _ (Date_now_eq w)).
  rewrite (bind_Ret _ _ _ _ _ Hfind).
  rewrite (bind_Ret _ _ _ _ _ (mtimeSafe_eq input w1)).
  apply bind_Throw.
  now rewrite (bind_Ret _ _ _ _ _ Hdeps).
Qed.

(** A rule for [bundle] with a literal dependency declared first and a
    generator that throws declared second. *)
Lemma generator_exception_fails_exec_witness :
  exec 1
    (mkPipeline
       [mkRule Scenario.re_bundle None []
          (CompositeDependencyGeneratorAdapter
             (declared_adapter (inl "vendor.js"))
             (declared_adapter (inr (fun _ _ => inl (Error "no manifest")))))])
    "bundle" None Scenario.empty_disk
  = Throw (Error "no manifest") (tick Scenario.empty_disk).
Proof.
  apply (generator_exception_fails_exec 0) with (m := [Some "bundle"]) (me := 6%nat)
    (rule := mkRule Scenario.re_bundle None []
               (CompositeDependencyGeneratorAdapter
                  (declared_adapter (inl "vendor.js"))
                  (declared_adapter (inr (fun _ _ => inl (Error "no manifest")))))).
  - reflexivity.
  - split; reflexivity.
  - reflexivity.
  - reflexivity.
Defined.

(** ** The order of the dependencies and the composed mtime *)

Lemma mapM_cons_Ret {A B} (f : A -> Async B) x l w y w1 ys w2 :
  f x w = Ret y w1 -> mapM f l w1 = Ret ys w2 ->
  mapM f (x :: l) w = Ret (y :: ys) w2.
Proof.
  intros Hx Hl. simpl.
  rewrite (bind_Ret _ _ _ _ _ Hx). now rewrite (bind_Ret _ _ _ _ _ Hl).
Qed.

Lemma stamps_own clk n (es : list Entry) :
  Forall (fun e => exists t, e_mtime e = Some (Resolved t)) es ->
  stamps clk n es = own_mtimes es /\ length (own_mtimes es) = length es.
Proof.
  induction 1 as [|e es [t He] _ [IH1 IH2]]; [split; reflexivity|].
  unfold own_mtimes in *. simpl. rewrite He. simpl.
  split; f_equal; assumption.
Qed.

Lemma own_mtimes_Permutation (es es' : list Entry) :
  es ≡ₚ es' -> own_mtimes es ≡ₚ own_mtimes es'.
Proof. intros H. unfold own_mtimes. now rewrite H. Qed.

Lemma composeMTime_own (es : list Entry) w :
  es <> [] ->
  Forall (fun e => exists t, e_mtime e = Some (Resolved t)) es ->
  exists d,
    SimpleContext.composeMTime (VArray es) w = Ret (Resolved d) w /\
    d ∈ own_mtimes es /\ forall t, t ∈ own_mtimes es -> t <= d.
Proof.
  intros Hne Hown.
  rewrite (composeMTime_array es Hne).
  assert (Hsettled : mapM (fun e => settle match SimpleContext.getMTime e with
                                           | Some mtime => await mtime
                                           | None => Date_now
                                           end) es w
                     = Ret (Resolved <$> own_mtimes es) w).
  { clear Hne. revert w. induction Hown as [|e es [t He] _ IH]; intros w;
      [reflexivity|].
    replace (own_mtimes (e :: es)) with (t :: own_mtimes es)
      by (unfold own_mtimes; simpl; now rewrite He).
    rewrite fmap_cons. apply mapM_cons_Ret with (w1 := w); [|apply IH].
    unfold SimpleContext.getMTime. now rewrite He. }
  rewrite (bind_Ret _ _ _ _ _ Hsettled), Promise_all_Resolved.
  destruct (Array_sort_head (own_mtimes es)) as (d & rest & Hsort & Hin & Hmax).
  { destruct (stamps_own (fun _ => 0) 0%nat es Hown) as [_ Hlen].
    intros Hnil. rewrite Hnil in Hlen. destruct es; [congruence | discriminate]. }
  rewrite Hsort. exists d. repeat split; assumption.
Qed.

(** X14. The composed mtime does not depend on the order of the
    dependencies. For entries that all carry a resolved mtime, composing
    the mtimes of a rearrangement of the entries gives the same date, the
    latest of their mtimes, and reads no clock. *)
Theorem composeMTime_order_irrelevant (es es' : list Entry) w :
  es <> [] ->
  Forall (fun e => exists t, e_mtime e = Some (Resolved t)) es ->
  es ≡ₚ es' ->
  SimpleContext.composeMTime (VArray es') w = SimpleContext.composeMTime (VArray es) w /\
  exists d,
    SimpleContext.composeMTime (VArray es) w = Ret (Resolved d) w /\
    d ∈ own_mtimes es /\ forall t, t ∈ own_mtimes es -> t <= d.
Proof.
  intros Hne Hown Hperm.
  assert (Hne' : es' <> []).
  { intros ->. apply Permutation_nil_r in Hperm. contradiction. }
  assert (Hown' : Forall (fun e => exists t, e_mtime e = Some (Resolved t)) es')
    by (now rewrite <- Hperm).
  destruct (composeMTime_own es w Hne Hown) as (d & Hd & Hin & Hmax).
  destruct (composeMTime_own es' w Hne' Hown') as (d' & Hd' & Hin' & Hmax').
  split; [|exists d; repeat split; assumption].
  rewrite Hd, Hd'.
  pose proof (own_mtimes_Permutation _ _ Hperm) as Hp.
  assert (d' <= d) by (apply Hmax; now rewrite Hp).
  assert (d <= d') by (apply Hmax'; now rewrite <- Hp).
  replace d' with d by lia. reflexivity.
Qed.

(** Two file entries, of mtimes 5 and 9, in either order. *)
Lemma composeMTime_order_irrelevant_witness :
  SimpleContext.composeMTime
    (VArray [Scenario.file_entry "b.js" 9 "b"; Scenario.file_entry "a.js" 5 "a"])
    Scenario.empty_disk
  = SimpleContext.composeMTime
      (VArray [Scenario.file_entry "a.js" 5 "a"; Scenario.file_entry "b.js" 9 "b"])
      Scenario.empty_disk.
Proof.
  refine (proj1 (composeMTime_order_irrelevant
                   [Scenario.file_entry "a.js" 5 "a"; Scenario.file_entry "b.js" 9 "b"]
                   [Scenario.file_entry "b.js" 9 "b"; Scenario.file_entry "a.js" 5 "a"]
                   Scenario.empty_disk _ _ _)).
  - discriminate.
  - repeat constructor; eexists; reflexivity.
  - apply Permutation_swap.
Defined.
